(** * LlamaLex: a shallow embedding of [models/ggmlex/cpp/llamalex.cpp]

    The development follows the source file top to bottom: the C++ value
    types the code relies on ([int], [size_t], [float], [std::string],
    exceptions), the tokenizer [LegalTokenizer], the configuration record,
    [MultiHeadAttention], the engine [LlamaLex] and the [extern "C"]
    interface.  Properties of the code are stated and proved after the
    definitions. *)

From Stdlib Require Import String Ascii ZArith NArith Bool List Lia.
From Stdlib Require Import Decimal DecimalZ.
From Stdlib Require Import Floats.SpecFloat.
Import ListNotations.

(** ** C++ values *)

Module Cxx.

(** [std::string] is a sequence of [char]. *)
Definition str := list ascii.

Definition lit (s : string) : str := list_ascii_of_string s.

(** [int] is 32 bits wide, two's complement; [size_t] is 64 bits wide. *)
Definition SIZE_MAX : N := 2 ^ 64 - 1.

(** Conversion of an integer value to [int]: reduction modulo [2^32] into
    the signed range. *)
Definition to_int (z : Z) : Z := ((z + 2 ^ 31) mod 2 ^ 32 - 2 ^ 31)%Z.

(** Conversion of an integer value to [size_t]: reduction modulo [2^64]. *)
Definition to_size_t (z : Z) : N := Z.to_N (z mod 2 ^ 64).

(** Exceptions the standard library raises in this file. *)
Inductive exn : Type :=
| length_error   (* std::vector(n) with n > max_size() *)
| bad_alloc.     (* operator new could not obtain storage *)

(** Outcome of running a piece of code: a value, a thrown exception that
    nothing caught, or undefined behaviour (integer division by zero, a call
    through a null pointer). *)
Inductive result (A : Type) : Type :=
| Ok (a : A)
| Throw (e : exn)
| UB.
Arguments Ok {A} a.
Arguments Throw {A} e.
Arguments UB {A}.

Definition rbind {A B} (r : result A) (k : A -> result B) : result B :=
  match r with
  | Ok a => k a
  | Throw e => Throw e
  | UB => UB
  end.

(** Pointers returned across the C interface: null, or the object pointed
    to. *)
Inductive ptr (A : Type) : Type :=
| nullptr
| ptr_to (a : A).
Arguments nullptr {A}.
Arguments ptr_to {A} a.

(** [a % b] on [size_t]; a zero divisor is undefined behaviour. *)
Definition size_mod (a b : N) : result N :=
  if (b =? 0)%N then UB else Ok (a mod b)%N.

(** [a / b] on [size_t]. *)
Definition size_div (a b : N) : result N :=
  if (b =? 0)%N then UB else Ok (a / b)%N.

(** [std::to_string(int)]: decimal digits, most significant first, with a
    leading minus sign for negative values. *)
Fixpoint chars_of_uint (d : uint) : str :=
  match d with
  | Nil => []
  | D0 d => "0"%char :: chars_of_uint d
  | D1 d => "1"%char :: chars_of_uint d
  | D2 d => "2"%char :: chars_of_uint d
  | D3 d => "3"%char :: chars_of_uint d
  | D4 d => "4"%char :: chars_of_uint d
  | D5 d => "5"%char :: chars_of_uint d
  | D6 d => "6"%char :: chars_of_uint d
  | D7 d => "7"%char :: chars_of_uint d
  | D8 d => "8"%char :: chars_of_uint d
  | D9 d => "9"%char :: chars_of_uint d
  end.

Definition to_string (z : Z) : str :=
  match Z.to_int z with
  | Pos d => chars_of_uint d
  | Neg d => "-"%char :: chars_of_uint d
  end.

(** [float] is IEEE-754 binary32: 24 bits of precision, [emax = 128]. *)
Definition float := spec_float.
Definition f_prec : Z := 24.
Definition f_emax : Z := 128.

(** [(float) z] for an integer [z], rounding to nearest even. *)
Definition float_of_int (z : Z) : float := binary_normalize f_prec f_emax z 0 false.
Definition fdiv (x y : float) : float := SFdiv f_prec f_emax x y.
Definition fmul (x y : float) : float := SFmul f_prec f_emax x y.

(** The literal [0.01f], bit pattern [0x3C23D70A]. *)
Definition f_0_01 : float := S754_finite false 10737418 (-30).
(** A value-initialised [float]. *)
Definition f_zero : float := S754_zero false.

(** [std::vector<float>::max_size()] (libstdc++, LP64):
    [PTRDIFF_MAX / sizeof(float)]. *)
Definition vector_float_max_size : N := (2 ^ 63 - 1) / 4.

(** [v[i] = x] for [i < v.size()]. *)
Fixpoint vec_set {A} (i : nat) (x : A) (v : list A) : list A :=
  match v, i with
  | [], _ => []
  | _ :: v', O => x :: v'
  | y :: v', S i' => y :: vec_set i' x v'
  end.

(** [strcpy(dst, src)]: the characters of [src] up to its first NUL,
    followed by the terminating NUL. *)
Fixpoint strcpy (src : str) : str :=
  match src with
  | [] => [Ascii.zero]
  | c :: rest => if Ascii.eqb c Ascii.zero then [Ascii.zero] else c :: strcpy rest
  end.

End Cxx.
Import Cxx.

Notation "x <- r ;; k" := (rbind r (fun x => k))
  (at level 61, r at next level, right associativity).

(** ** Sample instances of the platform parameters

    The engine calls [std::hash<std::string>] and [rand()], whose algorithms
    belong to the C and C++ libraries.  The model takes them as parameters;
    these instances are used to run it. *)

(** A hash that sums the character codes. *)
Definition sum_hash (w : str) : N :=
  fold_left (fun h c => (h + N_of_ascii c)%N) w 0%N.

(** The portable [rand] given in ISO C, 7.22.2.2: the state is the
    [unsigned long] [next], initially [1]; [RAND_MAX] is [32767]. *)
Definition iso_rand (next : N) : Z * N :=
  let next := ((next * 1103515245 + 12345) mod 2 ^ 64)%N in
  (Z.of_N (((next / 65536) mod 2 ^ 32) mod 32768), next).
Definition iso_RAND_MAX : Z := 32767.
Definition iso_seed : N := 1.

(** An allocator that satisfies every request, and one that has run dry. *)
Definition plenty (bytes : N) : bool := true.
Definition exhausted (bytes : N) : bool := false.

(** ** Data of the engine *)

(** [class LegalTokenizer]: its only field. *)
Record LegalTokenizer : Type := { vocab_size_ : N }.

(** [struct LlamaLexConfig], with its default member initialisers. *)
Record LlamaLexConfig : Type := {
  vocab_size : N;
  embedding_dim : N;
  num_layers : N;
  num_heads : N;
  ff_dim : N;
  max_seq_length : N;
  use_legal_vocab : bool;
  enable_case_law_mode : bool;
  enable_statute_mode : bool
}.

Definition default_config : LlamaLexConfig := {|
  vocab_size := 50000;
  embedding_dim := 768;
  num_layers := 12;
  num_heads := 12;
  ff_dim := 3072;
  max_seq_length := 2048;
  use_legal_vocab := true;
  enable_case_law_mode := false;
  enable_statute_mode := false
|}.

(** [class MultiHeadAttention]: its fields. *)
Record MultiHeadAttention : Type := {
  embedding_dim_ : N;
  num_heads_ : N;
  head_dim_ : N
}.

(** [class LlamaLex]: its fields. *)
Record LlamaLex : Type := {
  config_ : LlamaLexConfig;
  tokenizer_ : LegalTokenizer
}.

(** [sizeof(LlamaLex)] on LP64: six [size_t], three [bool] padded to eight
    bytes, and the tokenizer's [size_t]. *)
Definition sizeof_LlamaLex : N := 64.
Definition sizeof_float : N := 4.

Definition BOS : Z := 1.
Definition EOS : Z := 2.

Definition nonempty {A} (l : list A) : bool :=
  match l with [] => false | _ :: _ => true end.

(** ** Sample configurations *)

(** The configuration built by the example driver [main], the one
    [llamalex_create(5000, 100, 4)] builds, and one whose [embedding_dim] is
    the largest [size_t]. *)
Definition main_config : LlamaLexConfig := {|
  vocab_size := 5000;
  embedding_dim := 256;
  num_layers := 4;
  num_heads := 12;
  ff_dim := 3072;
  max_seq_length := 2048;
  use_legal_vocab := true;
  enable_case_law_mode := false;
  enable_statute_mode := false
|}.

Definition indivisible_config : LlamaLexConfig := {|
  vocab_size := 5000;
  embedding_dim := 100;
  num_layers := 4;
  num_heads := 12;
  ff_dim := 3072;
  max_seq_length := 2048;
  use_legal_vocab := true;
  enable_case_law_mode := false;
  enable_statute_mode := false
|}.

Definition oversized_config : LlamaLexConfig := {|
  vocab_size := 5000;
  embedding_dim := SIZE_MAX;
  num_layers := 4;
  num_heads := 12;
  ff_dim := 3072;
  max_seq_length := 2048;
  use_legal_vocab := true;
  enable_case_law_mode := false;
  enable_statute_mode := false
|}.

(** The configuration of [main] with a vocabulary of two entries, and with
    [embedding_dim = 0]. *)
Definition tiny_vocab_config : LlamaLexConfig := {|
  vocab_size := 2;
  embedding_dim := 256;
  num_layers := 4;
  num_heads := 12;
  ff_dim := 3072;
  max_seq_length := 2048;
  use_legal_vocab := true;
  enable_case_law_mode := false;
  enable_statute_mode := false
|}.

Definition zero_dim_config : LlamaLexConfig := {|
  vocab_size := 5000;
  embedding_dim := 0;
  num_layers := 4;
  num_heads := 12;
  ff_dim := 3072;
  max_seq_length := 2048;
  use_legal_vocab := true;
  enable_case_law_mode := false;
  enable_statute_mode := false
|}.

(** ** Vocabulary of the properties *)

Definition is_sentinel (t : Z) : bool := (t =? BOS)%Z || (t =? EOS)%Z.

(** The words of a text: maximal runs of characters other than space,
    newline and tab.  [split_from text word] continues a word already begun;
    it returns the completed words and the run still open at the end. *)
Definition is_space (c : ascii) : bool :=
  match c with
  | " "%char | "010"%char | "009"%char => true
  | _ => false
  end.

Fixpoint split_from (text word : str) : list str * str :=
  match text with
  | [] => ([], word)
  | c :: text' =>
      if is_space c then
        match word with
        | [] => split_from text' []
        | _ :: _ => let (ws, open_run) := split_from text' [] in (word :: ws, open_run)
        end
      else split_from text' (word ++ [c])
  end.

Definition words (text : str) : list str :=
  let (ws, open_run) := split_from text [] in
  ws ++ match open_run with [] => [] | _ :: _ => [open_run] end.

(** Strings joined with one space between neighbours. *)
Fixpoint join_spaces (ws : list str) : str :=
  match ws with
  | [] => []
  | w :: ws' =>
      w ++ match ws' with
           | [] => []
           | _ :: _ => " "%char :: join_spaces ws'
           end
  end.

(** The tokens [detokenize] keeps. *)
Definition drop_sentinels (tokens : list Z) : list Z :=
  filter (fun t => negb (is_sentinel t)) tokens.

(** [pat] occurs in [s] as a contiguous substring. *)
Definition occurs_in (pat s : str) : Prop :=
  exists before after, s = before ++ pat ++ after.

Fixpoint starts_with (pat s : str) : bool :=
  match pat, s with
  | [], _ => true
  | _ :: _, [] => false
  | p :: pat', c :: s' => Ascii.eqb p c && starts_with pat' s'
  end.

Fixpoint contains (pat s : str) : bool :=
  starts_with pat s ||
  match s with
  | [] => false
  | _ :: s' => contains pat s'
  end.

(** The characters [std::to_string] writes besides the sign. *)
Definition is_digit (c : ascii) : bool :=
  match c with
  | "0"%char | "1"%char | "2"%char | "3"%char | "4"%char
  | "5"%char | "6"%char | "7"%char | "8"%char | "9"%char => true
  | _ => false
  end.

(** A function that may fail, applied to the elements of a list in order. *)
Fixpoint map_result {A B} (f : A -> result B) (l : list A) : result (list B) :=
  match l with
  | [] => Ok []
  | a :: l' =>
      b <- f a ;;
      bs <- map_result f l' ;;
      Ok (b :: bs)
  end.

(** The characters a token's string form is made of. *)
Definition is_token_char (c : ascii) : bool :=
  is_digit c ||
  match c with
  | "-"%char | "<"%char | ">"%char | "_"%char
  | "t"%char | "o"%char | "k"%char | "e"%char | "n"%char => true
  | _ => false
  end.

(** The elements of a list up to and including its first END token. *)
Fixpoint through_eos (l : list Z) : list Z :=
  match l with
  | [] => []
  | t :: l' => if (t =? EOS)%Z then [t] else t :: through_eos l'
  end.

(** The string a C reader finds in a buffer: the characters before the
    first NUL. *)
Fixpoint c_string (buf : str) : str :=
  match buf with
  | [] => []
  | c :: rest => if Ascii.eqb c Ascii.zero then [] else c :: c_string rest
  end.

(** A text of [n] one-letter words. *)
Definition text_of_words (n : nat) : str := concat (repeat (lit "a ") n).

(** ** The code *)

Section LlamaLexModel.

#[local] Set Default Proof Using "Type".

(** [std::hash<std::string>{}]. *)
Variable hash : str -> N.
(** The hidden state of [rand()], and one call of it. *)
Variable rng : Type.
Variable rand : rng -> Z * rng.
Variable RAND_MAX : Z.
(** Whether [operator new] can satisfy a request of that many bytes. *)
Variable alloc_ok : N -> bool.

(** Code that calls [rand()] threads the generator's state. *)
Definition M (A : Type) : Type := rng -> result (A * rng).

Definition mret {A} (a : A) : M A := fun s => Ok (a, s).

Definition mbind {A B} (m : M A) (k : A -> M B) : M B :=
  fun s =>
    match m s with
    | Ok (a, s') => k a s'
    | Throw e => Throw e
    | UB => UB
    end.

Definition lift {A} (r : result A) : M A :=
  fun s =>
    match r with
    | Ok a => Ok (a, s)
    | Throw e => Throw e
    | UB => UB
    end.

Definition call_rand : M Z := fun s => Ok (rand s).

Notation "x <~ m ;; k" := (mbind m (fun x => k))
  (at level 61, m at next level, right associativity).

(** [operator new] / [operator new[]] for [bytes] bytes. *)
Definition operator_new (bytes : N) : result unit :=
  if alloc_ok bytes then Ok tt else Throw bad_alloc.

(** *** LegalTokenizer *)

Definition LegalTokenizer_new (vocab_size : N) : LegalTokenizer :=
  {| vocab_size_ := vocab_size |}.

(** [int get_token_id(const std::string& word)] *)
Definition get_token_id (self : LegalTokenizer) (word : str) : result Z :=
  h <- size_mod (hash word) (vocab_size_ self) ;;
  Ok (to_int (Z.of_N h)).

(** [std::string get_token_str(int token_id)] *)
Definition get_token_str (token_id : Z) : str :=
  lit "<token_" ++ to_string token_id ++ lit ">".

Definition is_separator (c : ascii) : bool :=
  Ascii.eqb c " " || Ascii.eqb c "010" || Ascii.eqb c "009".

(** The [for (char c : text)] loop of [tokenize], on the characters still to
    be read, with the loop's two variables. *)
Fixpoint tokenize_loop (self : LegalTokenizer) (text : str)
    (tokens : list Z) (word : str) : result (list Z * str) :=
  match text with
  | [] => Ok (tokens, word)
  | c :: text' =>
      if is_separator c then
        if nonempty word then
          id <- get_token_id self word ;;
          tokenize_loop self text' (tokens ++ [id]) []
        else tokenize_loop self text' tokens word
      else tokenize_loop self text' tokens (word ++ [c])
  end.

(** [std::vector<int> tokenize(const std::string& text)] *)
Definition tokenize (self : LegalTokenizer) (text : str) : result (list Z) :=
  let tokens := [BOS] in
  st <- tokenize_loop self text tokens [] ;;
  let '(tokens, word) := st in
  tokens <- (if nonempty word
             then id <- get_token_id self word ;; Ok (tokens ++ [id])
             else Ok tokens) ;;
  Ok (tokens ++ [EOS]).

(** The loop of [detokenize], on the tokens still to be visited, with the
    text built so far. *)
Fixpoint detokenize_loop (tokens : list Z) (text : str) : str :=
  match tokens with
  | [] => text
  | t :: tokens' =>
      if (t =? 1)%Z || (t =? 2)%Z then detokenize_loop tokens' text
      else
        let word := get_token_str t in
        let text := if nonempty text then text ++ lit " " else text in
        detokenize_loop tokens' (text ++ word)
  end.

(** [std::string detokenize(const std::vector<int>& tokens)] *)
Definition detokenize (tokens : list Z) : str := detokenize_loop tokens [].

(** *** MultiHeadAttention *)

(** The constructor. *)
Definition MultiHeadAttention_new (embedding_dim num_heads : N)
    : result MultiHeadAttention :=
  head_dim <- size_div embedding_dim num_heads ;;
  Ok {| embedding_dim_ := embedding_dim;
        num_heads_ := num_heads;
        head_dim_ := head_dim |}.

(** [std::vector<float> forward(const std::vector<float>& input)] *)
Definition forward (self : MultiHeadAttention) (input : list float) : list float :=
  input.

(** *** LlamaLex *)

(** The constructor ([init_model] is empty). *)
Definition LlamaLex_new (config : LlamaLexConfig) : LlamaLex :=
  {| config_ := config;
     tokenizer_ := LegalTokenizer_new (vocab_size config) |}.

(** [std::vector<float> emb(n)]: [n] value-initialised elements. *)
Definition vector_float_new (n : N) : result (list float) :=
  if (vector_float_max_size <? n)%N then Throw length_error
  else
    _ <- (if (n =? 0)%N then Ok tt else operator_new (sizeof_float * n)) ;;
    Ok (repeat f_zero (N.to_nat n)).

(** The loop of [get_token_embedding]: [todo] iterations remain, the next
    index is [i]. *)
Fixpoint get_token_embedding_loop (todo i : nat) (emb : list float) : M (list float) :=
  match todo with
  | O => mret emb
  | S todo' =>
      r <~ call_rand ;;
      let x := fmul f_0_01 (fdiv (float_of_int r) (float_of_int RAND_MAX)) in
      get_token_embedding_loop todo' (S i) (vec_set i x emb)
  end.

(** [std::vector<float> get_token_embedding(int token_id)] *)
Definition get_token_embedding (self : LlamaLex) (token_id : Z) : M (list float) :=
  emb <~ lift (vector_float_new (embedding_dim (config_ self))) ;;
  get_token_embedding_loop (N.to_nat (embedding_dim (config_ self))) 0 emb.

(** The [for (int token_id : tokens)] loop of [encode]. *)
Fixpoint encode_loop (self : LlamaLex) (tokens : list Z) (embeddings : list float)
    : M (list float) :=
  match tokens with
  | [] => mret embeddings
  | token_id :: tokens' =>
      token_emb <~ get_token_embedding self token_id ;;
      encode_loop self tokens' (embeddings ++ token_emb)
  end.

(** [std::vector<float> encode(const std::string& text)] *)
Definition encode (self : LlamaLex) (text : str) : M (list float) :=
  tokens <~ lift (tokenize (tokenizer_ self) text) ;;
  encode_loop self tokens [].

(** The [for (size_t i = 0; i < max_length; ++i)] loop of [generate]:
    [todo = max_length - i] iterations remain. *)
Fixpoint generate_loop (self : LlamaLex) (todo : nat) (tokens : list Z)
    : M (list Z) :=
  match todo with
  | O => mret tokens
  | S todo' =>
      r <~ call_rand ;;
      m <~ lift (size_mod (to_size_t r) (vocab_size (config_ self))) ;;
      let next_token := to_int (Z.of_N m) in
      let tokens := tokens ++ [next_token] in
      if (next_token =? 2)%Z then mret tokens
      else generate_loop self todo' tokens
  end.

(** The token vector of [generate] just before it is detokenized. *)
Definition generate_tokens (self : LlamaLex) (prompt : str) (max_length : N)
    : M (list Z) :=
  tokens <~ lift (tokenize (tokenizer_ self) prompt) ;;
  generate_loop self (N.to_nat max_length) tokens.

(** [std::string generate(const std::string& prompt, size_t max_length)] *)
Definition generate (self : LlamaLex) (prompt : str) (max_length : N) : M str :=
  tokens <~ generate_tokens self prompt max_length ;;
  mret (detokenize tokens).

(** [void analyze_case(const std::string& case_text)]: the token count it
    writes to [std::cout]. *)
Definition analyze_case (self : LlamaLex) (case_text : str) : M N :=
  embeddings <~ encode self case_text ;;
  shown <~ lift (size_div (N.of_nat (length embeddings))
                          (embedding_dim (config_ self))) ;;
  mret shown.

(** *** The C interface *)

(** [void* llamalex_create(size_t, size_t, size_t)] *)
Definition llamalex_create (vocab_size embedding_dim num_layers : N)
    : result (ptr LlamaLex) :=
  let config := {|
    vocab_size := vocab_size;
    embedding_dim := embedding_dim;
    num_layers := num_layers;
    num_heads := num_heads default_config;
    ff_dim := ff_dim default_config;
    max_seq_length := max_seq_length default_config;
    use_legal_vocab := use_legal_vocab default_config;
    enable_case_law_mode := enable_case_law_mode default_config;
    enable_statute_mode := enable_statute_mode default_config |} in
  _ <- operator_new sizeof_LlamaLex ;;
  Ok (ptr_to (LlamaLex_new config)).

(** [void llamalex_destroy(void* handle)]: the destructor's [cleanup] is
    empty, and deleting a null pointer does nothing. *)
Definition llamalex_destroy (handle : ptr LlamaLex) : result unit := Ok tt.

(** [float* llamalex_encode(void* handle, const char* text, size_t* out_size)]:
    the returned pointer and the value stored in [*out_size]. *)
Definition llamalex_encode (handle : ptr LlamaLex) (text : str)
    : M (ptr (list float) * N) :=
  match handle with
  | nullptr => fun _ => UB
  | ptr_to model =>
      embeddings <~ encode model text ;;
      let out_size := N.of_nat (length embeddings) in
      _ <~ lift (operator_new (sizeof_float * N.of_nat (length embeddings))) ;;
      let output := embeddings in
      mret (ptr_to output, out_size)
  end.

(** [char* llamalex_generate(void* handle, const char* prompt, size_t max_length)] *)
Definition llamalex_generate (handle : ptr LlamaLex) (prompt : str) (max_length : N)
    : M (ptr str) :=
  match handle with
  | nullptr => fun _ => UB
  | ptr_to model =>
      generated <~ generate model prompt max_length ;;
      _ <~ lift (operator_new (N.of_nat (length generated) + 1)) ;;
      let output := strcpy generated in
      mret (ptr_to output)
  end.

(** [void llamalex_free_string(char* str)] *)
Definition llamalex_free_string (s : ptr str) : result unit := Ok tt.


(** *** Vocabulary that depends on the platform parameters *)

(** The token a word is mapped to when the vocabulary is not empty. *)
Definition token_of (self : LegalTokenizer) (word : str) : Z :=
  to_int (Z.of_N (hash word mod vocab_size_ self)).

(** The generator's state after [k] calls of [rand()], and the values those
    calls return. *)
Fixpoint rand_skip (k : nat) (s : rng) : rng :=
  match k with
  | O => s
  | S k' => rand_skip k' (snd (rand s))
  end.

Fixpoint rand_values (k : nat) (s : rng) : list Z :=
  match k with
  | O => []
  | S k' => fst (rand s) :: rand_values k' (snd (rand s))
  end.

(** The token [generate] draws from one [rand()] result. *)
Definition sample_token (self : LlamaLex) (r : Z) : Z :=
  to_int (Z.of_N (to_size_t r mod vocab_size (config_ self))).

(** The value [get_token_embedding] stores for one [rand()] result. *)
Definition embedding_entry (r : Z) : float :=
  fmul f_0_01 (fdiv (float_of_int r) (float_of_int RAND_MAX)).

(** ** Generic facts about lists and strings *)

(** Closes a goal from [H : In c l] where [l] is a literal without [c]. *)
Ltac not_in_literal H :=
  simpl in H; repeat (destruct H as [H|H]; [discriminate H|]); contradiction.

Lemma split_at_fresh (A : Type) (c : A) (l1 l2 before after : list A) :
  l1 ++ l2 = before ++ c :: after ->
  ~ In c l1 ->
  exists mid, before = l1 ++ mid /\ l2 = mid ++ c :: after.
Proof.
  revert before.
  induction l1 as [|a l1 IH]; intros before E Hc.
  - exists before. split; [reflexivity | exact E].
  - destruct before as [|b before]; simpl in E.
    + injection E as Ea _. exfalso. apply Hc. left. exact Ea.
    + injection E as Ea E. subst b.
      destruct (IH before E) as [mid [E1 E2]].
      * intro Hin. apply Hc. right. exact Hin.
      * exists mid. split; [simpl; now f_equal | exact E2].
Qed.

Lemma delimited_prefix_unique (A : Type) (c : A) (a b x y : list A) :
  a ++ c :: x = b ++ c :: y ->
  ~ In c a -> ~ In c b ->
  a = b.
Proof.
  intros E Ha Hb.
  destruct (split_at_fresh A c a (c :: x) b y E Ha) as [mid [E1 E2]].
  destruct mid as [|m mid].
  - now rewrite app_nil_r in E1.
  - simpl in E2. injection E2 as Em _. subst m.
    exfalso. apply Hb. rewrite E1. apply in_or_app. right. now left.
Qed.

Lemma starts_with_spec (pat s : str) :
  starts_with pat s = true <-> exists after, s = pat ++ after.
Proof.
  revert s.
  induction pat as [|p pat IH]; intros s; simpl.
  - split; [intros _; now exists s | reflexivity].
  - destruct s as [|c s].
    + split; [discriminate | intros [after E]; discriminate].
    + rewrite andb_true_iff, Ascii.eqb_eq, IH.
      split.
      * intros [Ep [after E]]. exists after. now subst.
      * intros [after E]. injection E as Ep E. split; [now symmetry | now exists after].
Qed.

Lemma contains_spec (pat s : str) :
  contains pat s = true <-> occurs_in pat s.
Proof.
  unfold occurs_in.
  induction s as [|c s IH].
  - simpl. rewrite orb_false_r, starts_with_spec.
    split.
    + intros [after E]. now exists [], after.
    + intros [before [after E]].
      destruct before; [now exists after | discriminate].
  - simpl. rewrite orb_true_iff, starts_with_spec, IH.
    split.
    + intros [[after E] | [before [after E]]].
      * now exists [], after.
      * exists (c :: before), after. simpl. now f_equal.
    + intros [before [after E]].
      destruct before as [|b before].
      * left. now exists after.
      * right. injection E as _ E. now exists before, after.
Qed.

Lemma contains_false (pat s : str) :
  contains pat s = false <-> ~ occurs_in pat s.
Proof.
  rewrite <- contains_spec. destruct (contains pat s); split; intros; congruence.
Qed.

(** ** [std::to_string] *)

Lemma chars_of_uint_digits (d : uint) :
  Forall (fun c => is_digit c = true) (chars_of_uint d).
Proof.
  induction d; simpl; constructor; auto.
Qed.

Lemma chars_of_uint_inj (d d' : uint) :
  chars_of_uint d = chars_of_uint d' -> d = d'.
Proof.
  revert d'.
  induction d; destruct d'; simpl; intros E;
    try discriminate; try reflexivity;
    injection E as E; f_equal; auto.
Qed.

Lemma to_string_chars (z : Z) :
  Forall (fun c => is_digit c = true \/ c = "-"%char) (to_string z).
Proof.
  unfold to_string.
  destruct (Z.to_int z) as [d|d].
  - eapply Forall_impl; [|apply chars_of_uint_digits]. intros; now left.
  - constructor; [now right|].
    eapply Forall_impl; [|apply chars_of_uint_digits]. intros; now left.
Qed.

Lemma to_string_avoids (z : Z) (c : ascii) :
  is_digit c = false -> c <> "-"%char -> ~ In c (to_string z).
Proof.
  intros Hd Hm Hin.
  pose proof (to_string_chars z) as F.
  rewrite Forall_forall in F.
  destruct (F c Hin) as [H|H]; congruence.
Qed.

Lemma to_string_inj (z z' : Z) : to_string z = to_string z' -> z = z'.
Proof.
  unfold to_string. intros E.
  apply DecimalZ.to_int_inj.
  destruct (Z.to_int z) as [d|d], (Z.to_int z') as [d'|d'].
  - f_equal. now apply chars_of_uint_inj.
  - exfalso.
    pose proof (chars_of_uint_digits d) as F. rewrite E in F.
    inversion F; subst. discriminate.
  - exfalso.
    pose proof (chars_of_uint_digits d') as F. rewrite <- E in F.
    inversion F; subst. discriminate.
  - injection E as E. f_equal. now apply chars_of_uint_inj.
Qed.

Lemma to_string_nonempty (z : Z) : to_string z <> [].
Proof.
  unfold to_string, Z.to_int.
  destruct z as [|p|p]; simpl; try discriminate.
  intro E.
  assert (Pos.to_uint p = Nil) as H by (destruct (Pos.to_uint p); simpl in E; congruence).
  pose proof (DecimalPos.Unsigned.to_uint_nonnil p). congruence.
Qed.

(** ** The tokenizer *)

Lemma is_separator_space (c : ascii) : is_separator c = is_space c.
Proof.
  destruct c as [[] [] [] [] [] [] [] []]; reflexivity.
Qed.

Lemma get_token_id_ok (self : LegalTokenizer) (word : str) :
  vocab_size_ self <> 0%N ->
  get_token_id self word = Ok (token_of self word).
Proof.
  intros Hv. unfold get_token_id, size_mod, token_of.
  apply N.eqb_neq in Hv. now rewrite Hv.
Qed.

Lemma get_token_id_cases (self : LegalTokenizer) (word : str) :
  get_token_id self word = Ok (token_of self word) \/ get_token_id self word = UB.
Proof.
  unfold get_token_id, size_mod, token_of.
  destruct (vocab_size_ self =? 0)%N; [now right | now left].
Qed.

(** The loop only ever appends to [tokens]. *)
Lemma tokenize_loop_appends (self : LegalTokenizer) (text : str) :
  forall tokens word tokens' word',
    tokenize_loop self text tokens word = Ok (tokens', word') ->
    exists ids, tokens' = tokens ++ ids.
Proof.
  induction text as [|c text IH]; intros tokens word tokens' word' E; simpl in E.
  - injection E as E _. exists []. now rewrite app_nil_r.
  - destruct (is_separator c).
    + destruct (nonempty word).
      * destruct (get_token_id_cases self word) as [G|G]; rewrite G in E; simpl in E.
        -- destruct (IH _ _ _ _ E) as [ids Hids].
           exists (token_of self word :: ids).
           now rewrite Hids, <- app_assoc.
        -- discriminate.
      * eauto.
    + eauto.
Qed.

(** With a non-empty vocabulary the loop maps the words it completes, in
    order. *)
Lemma tokenize_loop_words (self : LegalTokenizer) (text : str) :
  vocab_size_ self <> 0%N ->
  forall tokens word,
    tokenize_loop self text tokens word =
    Ok (tokens ++ map (token_of self) (fst (split_from text word)),
        snd (split_from text word)).
Proof.
  intros Hv.
  induction text as [|c text IH]; intros tokens word; simpl.
  - now rewrite app_nil_r.
  - rewrite is_separator_space.
    destruct (is_space c); [|apply IH].
    destruct word as [|w word]; simpl; [apply IH|].
    rewrite get_token_id_ok by exact Hv. simpl.
    rewrite IH.
    destruct (split_from text []) as [ws open_run]; simpl.
    now rewrite <- app_assoc.
Qed.

Lemma tokenize_words (self : LegalTokenizer) (text : str) :
  vocab_size_ self <> 0%N ->
  tokenize self text = Ok (BOS :: map (token_of self) (words text) ++ [EOS]).
Proof.
  intros Hv. unfold tokenize, words.
  rewrite tokenize_loop_words by exact Hv.
  destruct (split_from text []) as [ws open_run]; simpl.
  destruct open_run as [|c open_run]; simpl.
  - now rewrite app_nil_r.
  - rewrite get_token_id_ok by exact Hv. simpl.
    now rewrite map_app.
Qed.

Lemma tokenize_shape (self : LegalTokenizer) (text : str) (toks : list Z) :
  tokenize self text = Ok toks ->
  exists ids, toks = BOS :: ids ++ [EOS].
Proof.
  unfold tokenize. intros E.
  destruct (tokenize_loop self text [BOS] []) as [[tokens word]| |] eqn:L;
    simpl in E; try discriminate.
  destruct (tokenize_loop_appends _ _ _ _ _ _ L) as [ids Hids]. subst tokens.
  destruct (nonempty word); simpl in E.
  - destruct (get_token_id_cases self word) as [G|G]; rewrite G in E; simpl in E;
      [|discriminate].
    injection E as E. exists (ids ++ [token_of self word]).
    now rewrite <- E, <- !app_assoc.
  - injection E as E. exists ids. now rewrite <- E.
Qed.

Lemma words_text_of_words (n : nat) :
  words (text_of_words n) = repeat (lit "a") n.
Proof.
  unfold words, text_of_words.
  assert (split_from (concat (repeat (lit "a ") n)) [] = (repeat (lit "a") n, [])) as E.
  { unfold lit. simpl list_ascii_of_string.
    induction n as [|n IH]; simpl; [reflexivity|]. now rewrite IH. }
  rewrite E. apply app_nil_r.
Qed.

(** C2.  Every sequence [tokenize] returns is non-empty, begins with the
    BEGIN token 1 and ends with the END token 2.  [tokenize] returns for
    every text when the vocabulary is not empty, and the empty text gives
    exactly BEGIN, END for every tokenizer. *)
Theorem tokenize_begins_and_ends (self : LegalTokenizer) (text : str) :
  (forall toks, tokenize self text = Ok toks ->
     toks <> [] /\ hd_error toks = Some 1%Z /\ last toks 0%Z = 2%Z) /\
  (vocab_size_ self <> 0%N -> exists toks, tokenize self text = Ok toks) /\
  tokenize self [] = Ok [1%Z; 2%Z].
Proof.
  split; [|split].
  - intros toks E.
    destruct (tokenize_shape _ _ _ E) as [ids Hids]. subst toks.
    split; [discriminate|]. split; [reflexivity|].
    change (BOS :: ids ++ [EOS]) with ((BOS :: ids) ++ [EOS]).
    apply last_last.
  - intros Hv. eexists. apply tokenize_words. exact Hv.
  - reflexivity.
Qed.

(** C4, as the code has it.  With a non-empty vocabulary [tokenize] returns,
    for every text, exactly two tokens more than the text has words, and for
    every bound there is a text whose token sequence is longer than the
    bound: the length is not held below [max_seq_length]. *)
Theorem tokenize_length_is_words_plus_two (self : LegalTokenizer) :
  vocab_size_ self <> 0%N ->
  (forall text, exists toks,
     tokenize self text = Ok toks /\ length toks = 2 + length (words text)) /\
  (forall bound, exists text toks,
     tokenize self text = Ok toks /\ bound < length toks).
Proof.
  intros Hv. split.
  - intros text. eexists. split; [apply tokenize_words; exact Hv|].
    simpl. rewrite length_app, length_map. simpl. lia.
  - intros bound. exists (text_of_words bound). eexists.
    split; [apply tokenize_words; exact Hv|].
    simpl. rewrite length_app, length_map, words_text_of_words, repeat_length.
    simpl. lia.
Qed.


(** ** The detokenizer *)

Lemma get_token_str_unfold (t : Z) :
  get_token_str t = "<"%char :: lit "token_" ++ to_string t ++ [">"%char].
Proof. reflexivity. Qed.

Lemma join_spaces_cons (w : str) (ws : list str) :
  join_spaces (w :: ws) =
  w ++ match ws with [] => [] | _ :: _ => " "%char :: join_spaces ws end.
Proof. reflexivity. Qed.

(** The loop of [detokenize] extends the text built so far by the kept
    tokens' strings, each preceded by a space unless the text is empty. *)
Lemma detokenize_loop_join (tokens : list Z) :
  forall text,
    detokenize_loop tokens text =
    let ws := map get_token_str (drop_sentinels tokens) in
    if nonempty text
    then text ++ match ws with [] => [] | _ :: _ => " "%char :: join_spaces ws end
    else join_spaces ws.
Proof.
  induction tokens as [|t tokens IH]; intros text.
  - simpl. destruct text; simpl; [reflexivity | now rewrite app_nil_r].
  - simpl detokenize_loop. unfold drop_sentinels. simpl filter.
    unfold is_sentinel, BOS, EOS.
    destruct ((t =? 1)%Z || (t =? 2)%Z); simpl negb; cbv iota.
    + apply IH.
    + rewrite IH. fold (drop_sentinels tokens).
      cbv zeta. rewrite map_cons, join_spaces_cons.
      destruct text as [|c text].
      * reflexivity.
      * simpl nonempty. cbv iota. simpl nonempty. cbv iota.
        change (lit " ") with [" "%char].
        now rewrite <- !app_assoc.
Qed.

Lemma detokenize_join (tokens : list Z) :
  detokenize tokens = join_spaces (map get_token_str (drop_sentinels tokens)).
Proof.
  unfold detokenize. now rewrite detokenize_loop_join.
Qed.

(** Every ["<"] of the joined text opens the string of one of the tokens. *)
Lemma join_spaces_open_bracket (l : list Z) :
  forall before after,
    join_spaces (map get_token_str l) = before ++ "<"%char :: after ->
    exists t rest,
      In t l /\ after = lit "token_" ++ to_string t ++ ">"%char :: rest.
Proof.
  induction l as [|t l IH]; intros before after E.
  - destruct before; discriminate.
  - rewrite map_cons, join_spaces_cons, get_token_str_unfold in E.
    remember (lit "token_" ++ to_string t ++ [">"%char]) as body eqn:Hbody.
    destruct before as [|b before]; simpl in E.
    + injection E as E.
      exists t. eexists. split; [now left|].
      rewrite <- E, Hbody, <- !app_assoc. reflexivity.
    + injection E as _ E.
      apply split_at_fresh in E.
      * destruct E as [mid [_ E]].
        destruct (map get_token_str l) as [|w ws] eqn:M.
        -- destruct mid; discriminate.
        -- destruct mid as [|m mid]; [discriminate|].
           cbv iota in E. rewrite <- app_comm_cons in E. injection E as _ E.
           destruct (IH mid after E) as [t' [rest [Hin Hrest]]].
           exists t', rest. split; [now right | exact Hrest].
      * subst body. intro Hin. apply in_app_or in Hin. destruct Hin as [Hin|Hin].
        -- not_in_literal Hin.
        -- apply in_app_or in Hin. destruct Hin as [Hin|Hin].
           ++ revert Hin. apply to_string_avoids; [reflexivity | discriminate].
           ++ not_in_literal Hin.
Qed.

(** A token's string occurs in the joined text only if the token is among
    those joined. *)
Lemma occurs_in_join_spaces (k : Z) (l : list Z) :
  occurs_in (get_token_str k) (join_spaces (map get_token_str l)) -> In k l.
Proof.
  intros [before [after E]].
  rewrite get_token_str_unfold in E. simpl in E.
  destruct (join_spaces_open_bracket l _ _ E) as [t [rest [Hin Hrest]]].
  simpl in Hrest. injection Hrest as Hrest.
  rewrite <- app_assoc in Hrest. simpl in Hrest.
  apply delimited_prefix_unique in Hrest.
  - apply to_string_inj in Hrest. now subst.
  - apply to_string_avoids; [reflexivity | discriminate].
  - apply to_string_avoids; [reflexivity | discriminate].
Qed.

Lemma drop_sentinels_spec (t : Z) (tokens : list Z) :
  In t (drop_sentinels tokens) <-> In t tokens /\ t <> 1%Z /\ t <> 2%Z.
Proof.
  unfold drop_sentinels. rewrite filter_In.
  unfold is_sentinel, BOS, EOS.
  rewrite negb_true_iff, orb_false_iff, !Z.eqb_neq. tauto.
Qed.

Lemma detokenize_no_sentinel_string (k : Z) (tokens : list Z) :
  is_sentinel k = true ->
  ~ occurs_in (get_token_str k) (detokenize tokens).
Proof.
  intros Hk Hocc. rewrite detokenize_join in Hocc.
  apply occurs_in_join_spaces, drop_sentinels_spec in Hocc.
  destruct Hocc as [_ [H1 H2]].
  unfold is_sentinel, BOS, EOS in Hk.
  apply orb_true_iff in Hk. rewrite !Z.eqb_eq in Hk. tauto.
Qed.






Lemma drop_sentinels_app (l1 l2 : list Z) :
  drop_sentinels (l1 ++ l2) = drop_sentinels l1 ++ drop_sentinels l2.
Proof. apply filter_app. Qed.



(** ** Generation *)

Lemma rand_skip_S (k : nat) (s : rng) :
  rand_skip (S k) s = rand_skip k (snd (rand s)).
Proof. reflexivity. Qed.

(** The loop of [generate] runs to completion: it appends at most [todo]
    tokens, calls [rand()] once per appended token, appends nothing after an
    END token, and leaves early only after an END token. *)
Lemma generate_loop_run (self : LlamaLex) :
  vocab_size (config_ self) <> 0%N ->
  forall todo tokens s,
  exists appended,
    generate_loop self todo tokens s
      = Ok (tokens ++ appended, rand_skip (length appended) s) /\
    length appended <= todo /\
    (forall before after, appended = before ++ EOS :: after -> after = []) /\
    (length appended < todo -> exists front, appended = front ++ [EOS]).
Proof.
  intros Hv. apply N.eqb_neq in Hv.
  induction todo as [|todo IH]; intros tokens s.
  - exists []. simpl. unfold mret. rewrite app_nil_r.
    repeat split; try lia.
    intros before after E. destruct before; discriminate.
  - simpl generate_loop. unfold mbind, call_rand, lift, size_mod.
    rewrite Hv.
    destruct (rand s) as [r s1] eqn:R.
    set (next := to_int (Z.of_N (to_size_t r mod vocab_size (config_ self)))).
    destruct (next =? 2)%Z eqn:Hn.
    + exists [next]. unfold mret. simpl length. rewrite rand_skip_S, R. simpl.
      repeat split; try lia.
      * intros before after E.
        destruct before as [|b before].
        -- now injection E as _ E.
        -- destruct before; discriminate.
      * intros _. exists []. apply Z.eqb_eq in Hn. now rewrite Hn.
    + destruct (IH (tokens ++ [next]) s1) as [app [Hrun [Hlen [Hend Hearly]]]].
      exists (next :: app).
      rewrite Hrun, <- app_assoc. simpl length. rewrite rand_skip_S, R. simpl.
      repeat split; try lia.
      * intros before after E.
        destruct before as [|b before].
        -- injection E as E _. apply Z.eqb_neq in Hn. unfold EOS in E. congruence.
        -- injection E as _ E. eapply Hend. exact E.
      * intros Hlt. destruct Hearly as [front Hfront]; [lia|].
        exists (next :: front). now rewrite Hfront.
Qed.

(** [generate] on a constructed engine: the run of the whole function. *)
Lemma generate_run
    (config : LlamaLexConfig) (prompt : str) (max_length : N) (s : rng) :
  vocab_size config <> 0%N ->
  let self := LlamaLex_new config in
  exists prompt_tokens appended,
    tokenize (tokenizer_ self) prompt = Ok prompt_tokens /\
    generate_tokens self prompt max_length s
      = Ok (prompt_tokens ++ appended, rand_skip (length appended) s) /\
    generate self prompt max_length s
      = Ok (detokenize (prompt_tokens ++ appended), rand_skip (length appended) s) /\
    (N.of_nat (length appended) <= max_length)%N /\
    (forall before after, appended = before ++ 2%Z :: after -> after = []) /\
    ((N.of_nat (length appended) < max_length)%N ->
     exists front, appended = front ++ [2%Z]).
Proof.
  intros Hv self.
  destruct (generate_loop_run self Hv (N.to_nat max_length)
              (BOS :: map (token_of (tokenizer_ self)) (words prompt) ++ [EOS]) s)
    as [appended [Hrun [Hlen [Hend Hearly]]]].
  eexists. exists appended.
  split; [apply tokenize_words; exact Hv|].
  assert (generate_tokens self prompt max_length s
          = Ok ((BOS :: map (token_of (tokenizer_ self)) (words prompt) ++ [EOS])
                  ++ appended, rand_skip (length appended) s)) as G.
  { unfold generate_tokens, mbind, lift.
    rewrite tokenize_words by exact Hv. exact Hrun. }
  split; [exact G|].
  split; [unfold generate, mbind; rewrite G; reflexivity|].
  split; [lia|].
  split; [exact Hend|].
  intros Hlt. apply Hearly. lia.
Qed.

(** C1.  For an engine with a non-empty vocabulary, every prompt, every
    [max_length] and every state of [rand()], [generate] returns.  The
    vector it detokenizes is the tokenized prompt followed by at most
    [max_length] appended tokens, one per loop iteration and call of
    [rand()]; an appended token equal to END (2) is the last one appended,
    and fewer than [max_length] tokens are appended only when the last one
    is END. *)
Theorem generate_terminates_within_max_length
    (config : LlamaLexConfig) (prompt : str) (max_length : N) (s : rng) :
  vocab_size config <> 0%N ->
  let self := LlamaLex_new config in
  exists prompt_tokens appended,
    tokenize (tokenizer_ self) prompt = Ok prompt_tokens /\
    generate_tokens self prompt max_length s
      = Ok (prompt_tokens ++ appended, rand_skip (length appended) s) /\
    generate self prompt max_length s
      = Ok (detokenize (prompt_tokens ++ appended), rand_skip (length appended) s) /\
    (N.of_nat (length appended) <= max_length)%N /\
    (forall before after, appended = before ++ 2%Z :: after -> after = []) /\
    ((N.of_nat (length appended) < max_length)%N ->
     exists front, appended = front ++ [2%Z]).
Proof.
  exact (generate_run config prompt max_length s).
Qed.

Lemma generate_output_detokenized (self : LlamaLex) (prompt : str)
    (max_length : N) (s s' : rng) (out : str) :
  generate self prompt max_length s = Ok (out, s') ->
  exists tokens, out = detokenize tokens.
Proof.
  unfold generate, mbind, mret. intros E.
  destruct (generate_tokens self prompt max_length s) as [[tokens s1]| |];
    try discriminate.
  injection E as E _. now exists tokens.
Qed.

(** C10.  [detokenize] gives the string forms of exactly the tokens other
    than 1 and 2, so a token 1 or 2 at any position of its input contributes
    nothing.  Hence a string returned by [generate] contains neither
    ["<token_1>"] nor ["<token_2>"]; and [generate] does return a string
    whenever the vocabulary is not empty. *)
Theorem detokenize_skips_sentinels_everywhere :
  (forall tokens,
     detokenize tokens = join_spaces (map get_token_str (drop_sentinels tokens))) /\
  (forall t tokens,
     In t (drop_sentinels tokens) <-> In t tokens /\ t <> 1%Z /\ t <> 2%Z) /\
  (forall before t after,
     t = 1%Z \/ t = 2%Z ->
     detokenize (before ++ t :: after) = detokenize (before ++ after)) /\
  (forall self prompt max_length s out s',
     generate self prompt max_length s = Ok (out, s') ->
     contains (lit "<token_1>") out = false /\
     contains (lit "<token_2>") out = false) /\
  (forall config prompt max_length s,
     vocab_size config <> 0%N ->
     exists out s', generate (LlamaLex_new config) prompt max_length s = Ok (out, s')).
Proof.
  split; [exact detokenize_join|].
  split; [exact drop_sentinels_spec|].
  split; [|split].
  - intros before t after Ht.
    rewrite !detokenize_join, !drop_sentinels_app.
    assert (drop_sentinels (t :: after) = drop_sentinels after) as D.
    { unfold drop_sentinels. simpl.
      destruct Ht as [-> | ->]; reflexivity. }
    now rewrite D.
  - intros self prompt max_length s out s' E.
    destruct (generate_output_detokenized _ _ _ _ _ _ E) as [tokens ->].
    split; apply contains_false.
    + apply (detokenize_no_sentinel_string 1%Z). reflexivity.
    + apply (detokenize_no_sentinel_string 2%Z). reflexivity.
  - intros config prompt max_length s Hv.
    destruct (generate_run config prompt max_length s Hv)
      as [pt [app [_ [_ [G _]]]]].
    eauto.
Qed.


(** ** Embeddings *)

Lemma vec_set_length (A : Type) (i : nat) (x : A) (v : list A) :
  length (vec_set i x v) = length v.
Proof.
  revert i. induction v as [|y v IH]; intros [|i]; simpl; auto.
Qed.

Lemma vec_set_split (A : Type) (x : A) (front : list A) :
  forall back y, vec_set (length front) x (front ++ y :: back) = front ++ x :: back.
Proof.
  induction front as [|a front IH]; intros back y; simpl; [reflexivity|].
  now rewrite IH.
Qed.

Lemma rand_values_length (k : nat) (s : rng) : length (rand_values k s) = k.
Proof.
  revert s. induction k as [|k IH]; intros s; simpl; auto.
Qed.

(** The loop overwrites the next [todo] elements with values computed from
    the next [todo] results of [rand()]. *)
Lemma get_token_embedding_loop_run (todo : nat) :
  forall (front : list float) (s : rng),
    get_token_embedding_loop todo (length front) (front ++ repeat f_zero todo) s
    = Ok (front ++ map embedding_entry (rand_values todo s), rand_skip todo s).
Proof.
  induction todo as [|todo IH]; intros front s.
  - reflexivity.
  - change (get_token_embedding_loop (S todo) (length front)
              (front ++ repeat f_zero (S todo)) s)
      with (let (r, s1) := rand s in
            get_token_embedding_loop todo (S (length front))
              (vec_set (length front) (embedding_entry r)
                 (front ++ f_zero :: repeat f_zero todo)) s1).
    destruct (rand s) as [r s1] eqn:R.
    rewrite vec_set_split.
    change (front ++ embedding_entry r :: repeat f_zero todo)
      with (front ++ [embedding_entry r] ++ repeat f_zero todo).
    rewrite app_assoc.
    replace (S (length front)) with (length (front ++ [embedding_entry r]))
      by (rewrite length_app; simpl; lia).
    rewrite IH. simpl rand_values. rewrite rand_skip_S, R. simpl.
    now rewrite <- app_assoc.
Qed.

(** What one lookup does: it fails on the size of the vector, or returns
    [embedding_dim] values computed from the next [embedding_dim] results of
    [rand()].  The token does not enter. *)
Lemma get_token_embedding_run (self : LlamaLex) (token_id : Z) (s : rng) :
  let dim := embedding_dim (config_ self) in
  get_token_embedding self token_id s =
  if (vector_float_max_size <? dim)%N then Throw length_error
  else if negb (dim =? 0)%N && negb (alloc_ok (sizeof_float * dim)) then Throw bad_alloc
  else Ok (map embedding_entry (rand_values (N.to_nat dim) s),
           rand_skip (N.to_nat dim) s).
Proof.
  intros dim. unfold get_token_embedding, vector_float_new, operator_new, mbind, lift.
  fold dim.
  destruct (vector_float_max_size <? dim)%N; [reflexivity|].
  destruct (dim =? 0)%N; cbn [negb andb rbind].
  - apply (get_token_embedding_loop_run (N.to_nat dim) []).
  - destruct (alloc_ok (sizeof_float * dim)); cbn [negb rbind]; [|reflexivity].
    apply (get_token_embedding_loop_run (N.to_nat dim) []).
Qed.







(** Two lookups in a row, for any tokens: the second one is computed from
    the results of [rand()] that follow those the first one consumed. *)
Lemma get_token_embedding_twice (self : LlamaLex) (t1 t2 : Z) (s : rng) :
  let dim := N.to_nat (embedding_dim (config_ self)) in
  (embedding_dim (config_ self) <= vector_float_max_size)%N ->
  (forall bytes, alloc_ok bytes = true) ->
  (v1 <~ get_token_embedding self t1 ;;
   v2 <~ get_token_embedding self t2 ;;
   mret (v1, v2)) s
  = Ok ((map embedding_entry (rand_values dim s),
         map embedding_entry (rand_values dim (rand_skip dim s))),
        rand_skip dim (rand_skip dim s)).
Proof.
  intros dim Hmax Halloc. unfold mbind, mret.
  rewrite !get_token_embedding_run. cbv zeta.
  apply N.ltb_ge in Hmax. rewrite Hmax, Halloc, andb_false_r.
  rewrite !get_token_embedding_run. cbv zeta.
  rewrite Hmax, Halloc, andb_false_r.
  reflexivity.
Qed.

(** ** The attention block *)

(** C5, as the code has it.  The constructor of [MultiHeadAttention] does
    not look at divisibility: for every [embedding_dim] and every
    [num_heads] other than zero it returns a block whose [head_dim] is the
    truncated quotient.  [llamalex_create] returns an engine with the
    requested [embedding_dim] and the default 12 heads whenever its
    allocation succeeds. *)
Theorem construction_ignores_divisibility :
  (forall dim heads,
     heads <> 0%N ->
     MultiHeadAttention_new dim heads
     = Ok {| embedding_dim_ := dim;
             num_heads_ := heads;
             head_dim_ := (dim / heads)%N |}) /\
  (forall vocab dim layers,
     alloc_ok sizeof_LlamaLex = true ->
     exists engine,
       llamalex_create vocab dim layers = Ok (ptr_to engine) /\
       embedding_dim (config_ engine) = dim /\
       num_heads (config_ engine) = 12%N).
Proof.
  split.
  - intros dim heads Hh. unfold MultiHeadAttention_new, size_div.
    apply N.eqb_neq in Hh. now rewrite Hh.
  - intros vocab dim layers Ha. unfold llamalex_create, operator_new.
    rewrite Ha. simpl. eexists. split; [reflexivity|]. split; reflexivity.
Qed.

Lemma forward_layers (self : MultiHeadAttention) (layers : nat) (input : list float) :
  Nat.iter layers (forward self) input = input.
Proof.
  induction layers as [|layers IH]; simpl; [reflexivity|].
  unfold forward at 1. exact IH.
Qed.

(** C9.  [forward] preserves the shape of its input, for every attention
    block and through any number of layers: a sequence of embedding vectors,
    laid out one after the other, comes back as a sequence of the same
    length whose vectors have the widths of the input's vectors, and the
    flat vector keeps its size. *)
Theorem forward_preserves_shape
    (self : MultiHeadAttention) (layers : nat) (input : list (list float)) :
  exists output : list (list float),
    Nat.iter layers (forward self) (concat input) = concat output /\
    length output = length input /\
    Forall2 (fun v w => length w = length v) input output /\
    length (forward self (concat input)) = length (concat input).
Proof.
  exists input.
  split; [apply forward_layers|].
  split; [reflexivity|].
  split; [|reflexivity].
  induction input; constructor; auto.
Qed.

(** ** The C interface *)

(** C8, as the code has it.  The entry points have no handlers.
    [llamalex_destroy] and [llamalex_free_string] cannot fail.  An exception
    thrown inside [encode] or [generate], or by the allocation of the object
    or of the output buffer, leaves [llamalex_create], [llamalex_encode] and
    [llamalex_generate] as that exception; none of the three ever returns a
    null pointer. *)
Theorem boundary_lets_exceptions_through :
  (forall handle, llamalex_destroy handle = Ok tt) /\
  (forall p, llamalex_free_string p = Ok tt) /\
  (forall vocab dim layers,
     llamalex_create vocab dim layers <> Ok nullptr /\
     (alloc_ok sizeof_LlamaLex = false ->
      llamalex_create vocab dim layers = Throw bad_alloc)) /\
  (forall model text s,
     (forall e, encode model text s = Throw e ->
                llamalex_encode (ptr_to model) text s = Throw e) /\
     (forall out s',
        encode model text s = Ok (out, s') ->
        alloc_ok (sizeof_float * N.of_nat (length out)) = false ->
        llamalex_encode (ptr_to model) text s = Throw bad_alloc) /\
     (forall n s', llamalex_encode (ptr_to model) text s <> Ok (nullptr, n, s'))) /\
  (forall model prompt max_length s,
     (forall e, generate model prompt max_length s = Throw e ->
                llamalex_generate (ptr_to model) prompt max_length s = Throw e) /\
     (forall out s',
        generate model prompt max_length s = Ok (out, s') ->
        alloc_ok (N.of_nat (length out) + 1) = false ->
        llamalex_generate (ptr_to model) prompt max_length s = Throw bad_alloc) /\
     (forall s', llamalex_generate (ptr_to model) prompt max_length s
                 <> Ok (nullptr, s'))).
Proof.
  split; [reflexivity|]. split; [reflexivity|].
  split; [|split].
  - intros vocab dim layers. unfold llamalex_create, operator_new.
    destruct (alloc_ok sizeof_LlamaLex); simpl; split; congruence.
  - intros model text s. unfold llamalex_encode, mbind, lift, operator_new, mret.
    split; [|split].
    + intros e E. now rewrite E.
    + intros out s' E Ha. now rewrite E, Ha.
    + intros n s'.
      destruct (encode model text s) as [[out s1]| |]; try discriminate.
      destruct (alloc_ok _); discriminate.
  - intros model prompt max_length s.
    unfold llamalex_generate, mbind, lift, operator_new, mret.
    split; [|split].
    + intros e E. now rewrite E.
    + intros out s' E Ha. now rewrite E, Ha.
    + intros s'.
      destruct (generate model prompt max_length s) as [[out s1]| |]; try discriminate.
      destruct (alloc_ok _); discriminate.
Qed.

(** ** More on the tokenizer *)

Lemma to_int_range (z : Z) : (- 2 ^ 31 <= to_int z < 2 ^ 31)%Z.
Proof.
  unfold to_int.
  pose proof (Z.mod_pos_bound (z + 2 ^ 31) (2 ^ 32) ltac:(lia)).
  lia.
Qed.

Lemma to_int_small (z : Z) : (0 <= z < 2 ^ 31)%Z -> to_int z = z.
Proof.
  intros H. unfold to_int. rewrite Z.mod_small; lia.
Qed.

Lemma map_result_app (A B : Type) (f : A -> result B) (l1 l2 : list A) :
  map_result f (l1 ++ l2) =
  (a <- map_result f l1 ;; b <- map_result f l2 ;; Ok (a ++ b)).
Proof.
  induction l1 as [|x l1 IH]; simpl.
  - destruct (map_result f l2); reflexivity.
  - destruct (f x) as [y| |]; simpl; try reflexivity.
    rewrite IH.
    destruct (map_result f l1) as [a| |]; simpl; try reflexivity.
    destruct (map_result f l2) as [b| |]; reflexivity.
Qed.

Lemma map_result_ok (A B : Type) (f : A -> result B) (g : A -> B) (l : list A) :
  (forall a, f a = Ok (g a)) -> map_result f l = Ok (map g l).
Proof.
  intros H. induction l as [|a l IH]; simpl; [reflexivity|].
  now rewrite H, IH.
Qed.

Lemma map_result_ub (A B : Type) (f : A -> result B) (l : list A) :
  (forall a, f a = UB) -> l <> [] -> map_result f l = UB.
Proof.
  intros H Hl. destruct l as [|a l]; [congruence|].
  simpl. now rewrite H.
Qed.

(** The loop of [tokenize] for any vocabulary size. *)
Lemma tokenize_loop_maps_words (self : LegalTokenizer) (text : str) :
  forall tokens word,
    tokenize_loop self text tokens word =
    (ids <- map_result (get_token_id self) (fst (split_from text word)) ;;
     Ok (tokens ++ ids, snd (split_from text word))).
Proof.
  induction text as [|c text IH]; intros tokens word; simpl.
  - now rewrite app_nil_r.
  - rewrite is_separator_space.
    destruct (is_space c); [|apply IH].
    destruct word as [|w word]; simpl; [apply IH|].
    destruct (split_from text []) as [ws open_run] eqn:S.
    simpl.
    destruct (get_token_id self (w :: word)) as [id| |]; simpl; try reflexivity.
    rewrite IH, S. simpl.
    destruct (map_result (get_token_id self) ws) as [ids| |]; simpl; try reflexivity.
    now rewrite <- app_assoc.
Qed.

Lemma tokenize_maps_words (self : LegalTokenizer) (text : str) :
  tokenize self text =
  (ids <- map_result (get_token_id self) (words text) ;;
   Ok (BOS :: ids ++ [EOS])).
Proof.
  unfold tokenize, words.
  rewrite tokenize_loop_maps_words.
  destruct (split_from text []) as [ws open_run]; simpl.
  rewrite map_result_app.
  destruct (map_result (get_token_id self) ws) as [ids| |]; simpl; try reflexivity.
  destruct open_run as [|c open_run]; simpl.
  - now rewrite app_nil_r.
  - destruct (get_token_id self (c :: open_run)) as [id| |]; reflexivity.
Qed.

(** X1.  [tokenize] returns BEGIN, then [get_token_id] of every word of the
    text in the order of the text, then END; it is undefined exactly when
    some [get_token_id] is. *)
Theorem tokenize_is_get_token_id_of_each_word (self : LegalTokenizer) (text : str) :
  tokenize self text =
  (ids <- map_result (get_token_id self) (words text) ;;
   Ok (1%Z :: ids ++ [2%Z])).
Proof.
  exact (tokenize_maps_words self text).
Qed.

Lemma split_from_app (a b : str) :
  forall word,
    split_from (a ++ b) word =
    let (ws, open_run) := split_from a word in
    let (ws', open_run') := split_from b open_run in
    (ws ++ ws', open_run').
Proof.
  induction a as [|c a IH]; intros word; simpl.
  - destruct (split_from b word); reflexivity.
  - destruct (is_space c); [|apply IH].
    destruct word as [|w word]; [apply IH|].
    rewrite IH.
    destruct (split_from a []) as [ws open_run].
    destruct (split_from b open_run) as [ws' open_run']. reflexivity.
Qed.

Lemma words_leading_space (c : ascii) (text : str) :
  is_space c = true -> words (c :: text) = words text.
Proof.
  intros Hc. unfold words. simpl. now rewrite Hc.
Qed.

Lemma words_trailing_space (c : ascii) (text : str) :
  is_space c = true -> words (text ++ [c]) = words text.
Proof.
  intros Hc. unfold words. rewrite split_from_app.
  destruct (split_from text []) as [ws open_run].
  simpl. rewrite Hc.
  destruct open_run as [|o open_run]; simpl; now rewrite app_nil_r.
Qed.

Lemma words_repeated_space (c c' : ascii) (a b : str) :
  is_space c = true -> is_space c' = true ->
  words (a ++ c :: c' :: b) = words (a ++ c :: b).
Proof.
  intros Hc Hc'. unfold words. rewrite !split_from_app.
  destruct (split_from a []) as [ws open_run].
  simpl. rewrite Hc, Hc'.
  destruct open_run; reflexivity.
Qed.

(** X2.  Only the words of a text matter to [tokenize]: a separator before
    the text, a separator after it, or a second separator next to one
    inside it changes nothing, and any two texts with the same words are
    tokenized alike. *)
Theorem tokenize_ignores_extra_separators
    (self : LegalTokenizer) (c c' : ascii) (a b : str) :
  is_space c = true -> is_space c' = true ->
  tokenize self (c :: a) = tokenize self a /\
  tokenize self (a ++ [c]) = tokenize self a /\
  tokenize self (a ++ c :: c' :: b) = tokenize self (a ++ c :: b) /\
  (words a = words b -> tokenize self a = tokenize self b).
Proof.
  intros Hc Hc'.
  rewrite !tokenize_maps_words.
  rewrite words_leading_space, words_trailing_space by exact Hc.
  rewrite (words_repeated_space c c' a b Hc Hc').
  repeat split. intros E. now rewrite E.
Qed.

(** X3.  With an empty vocabulary [tokenize] still returns BEGIN, END for a
    text without words, and is undefined (a remainder by zero) for every
    text that has a word. *)
Theorem tokenize_with_empty_vocabulary (self : LegalTokenizer) (text : str) :
  vocab_size_ self = 0%N ->
  (words text = [] -> tokenize self text = Ok [1%Z; 2%Z]) /\
  (words text <> [] -> tokenize self text = UB).
Proof.
  intros Hv. rewrite tokenize_maps_words. split.
  - intros E. now rewrite E.
  - intros Hw. rewrite map_result_ub; [reflexivity| |exact Hw].
    intros w. unfold get_token_id, size_mod. now rewrite Hv.
Qed.

Lemma token_of_in_range (self : LegalTokenizer) (word : str) :
  vocab_size_ self <> 0%N ->
  (vocab_size_ self <= 2 ^ 31)%N ->
  (0 <= token_of self word < Z.of_N (vocab_size_ self))%Z.
Proof.
  intros Hv Hmax. unfold token_of.
  pose proof (N.mod_upper_bound (hash word) (vocab_size_ self) Hv) as Hlt.
  change (2 ^ 31)%N with 2147483648%N in Hmax.
  remember (hash word mod vocab_size_ self)%N as m eqn:Hm. clear Hm.
  rewrite to_int_small; change (2 ^ 31)%Z with 2147483648%Z; lia.
Qed.

(** X4.  With a vocabulary of at most [2^31] entries every word is mapped to
    a token in [[0, vocab_size)]; for any vocabulary the tokens lie in the
    range of [int]. *)
Theorem tokenize_tokens_in_range (self : LegalTokenizer) (text : str) :
  vocab_size_ self <> 0%N ->
  exists ids,
    tokenize self text = Ok (1%Z :: ids ++ [2%Z]) /\
    length ids = length (words text) /\
    Forall (fun t => (- 2 ^ 31 <= t < 2 ^ 31)%Z) ids /\
    ((vocab_size_ self <= 2 ^ 31)%N ->
     Forall (fun t => (0 <= t < Z.of_N (vocab_size_ self))%Z) ids).
Proof.
  intros Hv.
  exists (map (token_of self) (words text)).
  split; [apply tokenize_words; exact Hv|].
  split; [apply length_map|].
  split.
  - apply Forall_map, Forall_forall. intros w _. apply to_int_range.
  - intros Hmax. apply Forall_map, Forall_forall. intros w _.
    now apply token_of_in_range.
Qed.

(** ** More on the detokenizer *)

Lemma is_token_char_not_space (c : ascii) :
  is_token_char c = true -> is_space c = false.
Proof.
  destruct c as [[] [] [] [] [] [] [] []]; simpl; intros H;
    first [reflexivity | discriminate H].
Qed.

Lemma is_token_char_not_nul (c : ascii) :
  is_token_char c = true -> c <> Ascii.zero.
Proof.
  intros H E. subst c. discriminate H.
Qed.

Lemma get_token_str_chars (t : Z) :
  Forall (fun c => is_token_char c = true) (get_token_str t).
Proof.
  rewrite get_token_str_unfold.
  constructor; [reflexivity|].
  apply Forall_app. split; [repeat constructor|].
  apply Forall_app. split; [|repeat constructor].
  eapply Forall_impl; [|apply to_string_chars].
  intros c [Hd | ->]; [|reflexivity].
  unfold is_token_char. now rewrite Hd.
Qed.

Lemma get_token_str_inj (a b : Z) : get_token_str a = get_token_str b -> a = b.
Proof.
  rewrite !get_token_str_unfold. intros E.
  injection E as E.
  apply app_inv_tail in E. now apply to_string_inj.
Qed.

Lemma map_get_token_str_inj (l1 l2 : list Z) :
  map get_token_str l1 = map get_token_str l2 -> l1 = l2.
Proof.
  revert l2. induction l1 as [|a l1 IH]; intros [|b l2] E; cbn [map] in E;
    try discriminate; [reflexivity|].
  assert (get_token_str a = get_token_str b) as Ea by congruence.
  assert (map get_token_str l1 = map get_token_str l2) as El by congruence.
  f_equal; [now apply get_token_str_inj | now apply IH].
Qed.

(** A run of characters that are not separators extends the open word. *)
Lemma split_from_word (w : str) :
  Forall (fun c => is_space c = false) w ->
  forall rest word, split_from (w ++ rest) word = split_from rest (word ++ w).
Proof.
  induction 1 as [|c w Hc _ IH]; intros rest word; simpl.
  - now rewrite app_nil_r.
  - rewrite Hc, IH, <- app_assoc. reflexivity.
Qed.

(** Splitting what [join_spaces] joined gives the strings back, when none
    of them is empty or contains a separator. *)
Lemma words_join_spaces (ws : list str) :
  Forall (fun w => w <> [] /\ Forall (fun c => is_space c = false) w) ws ->
  words (join_spaces ws) = ws.
Proof.
  induction 1 as [|w ws [Hne Hw] Hws IH]; [reflexivity|].
  rewrite join_spaces_cons. unfold words.
  rewrite split_from_word by exact Hw. simpl app.
  destruct ws as [|w' ws].
  - simpl. destruct w; [congruence | reflexivity].
  - unfold words in IH.
    remember (join_spaces (w' :: ws)) as joined eqn:Hj. clear Hj.
    destruct w as [|c w]; [congruence|].
    simpl split_from.
    destruct (split_from joined []) as [ws0 open_run].
    rewrite <- app_comm_cons. now rewrite IH.
Qed.

Lemma words_detokenize (tokens : list Z) :
  words (detokenize tokens) = map get_token_str (drop_sentinels tokens).
Proof.
  rewrite detokenize_join. apply words_join_spaces.
  apply Forall_map, Forall_forall. intros t _. split.
  - rewrite get_token_str_unfold. discriminate.
  - eapply Forall_impl; [|apply get_token_str_chars].
    intros c. apply is_token_char_not_space.
Qed.

(** X5.  Splitting the text [detokenize] returns at its separators gives
    back, in order, the string form of every token other than 1 and 2: the
    words of the text are in one-to-one correspondence with the kept
    tokens. *)
Theorem words_of_detokenized_text (tokens : list Z) :
  words (detokenize tokens) = map get_token_str (drop_sentinels tokens) /\
  length (words (detokenize tokens)) = length (drop_sentinels tokens).
Proof.
  split.
  - apply words_detokenize.
  - now rewrite words_detokenize, length_map.
Qed.

(** X6.  [detokenize] loses nothing but the tokens 1 and 2: two token
    sequences give the same text exactly when they agree after their 1s and
    2s are removed. *)
Theorem detokenize_eq_iff (l1 l2 : list Z) :
  detokenize l1 = detokenize l2 <-> drop_sentinels l1 = drop_sentinels l2.
Proof.
  split.
  - intros E. apply map_get_token_str_inj.
    rewrite <- !words_detokenize. now rewrite E.
  - intros E. now rewrite !detokenize_join, E.
Qed.

(** X7.  Tokenizing a detokenized sequence: with a non-empty vocabulary the
    result is BEGIN, one token per token of the sequence other than 1 and 2
    (the hash of its string form), END. *)
Theorem tokenize_of_detokenize (self : LegalTokenizer) (tokens : list Z) :
  vocab_size_ self <> 0%N ->
  tokenize self (detokenize tokens)
  = Ok (1%Z :: map (fun t => token_of self (get_token_str t)) (drop_sentinels tokens)
          ++ [2%Z]) /\
  (forall toks, tokenize self (detokenize tokens) = Ok toks ->
     length toks = 2 + length (drop_sentinels tokens)).
Proof.
  intros Hv.
  assert (tokenize self (detokenize tokens)
          = Ok (BOS :: map (fun t => token_of self (get_token_str t))
                         (drop_sentinels tokens) ++ [EOS])) as E.
  { rewrite tokenize_words by exact Hv.
    now rewrite words_detokenize, map_map. }
  split; [exact E|].
  intros toks Ht. rewrite E in Ht. injection Ht as <-.
  simpl. rewrite length_app, length_map. simpl. lia.
Qed.

(** ** [strcpy] and the returned string buffer *)

Lemma strcpy_c_string (src : str) : strcpy src = c_string src ++ [Ascii.zero].
Proof.
  induction src as [|c src IH]; simpl; [reflexivity|].
  destruct (Ascii.eqb c Ascii.zero); [reflexivity|].
  now rewrite IH.
Qed.

Lemma c_string_length (src : str) : length (c_string src) <= length src.
Proof.
  induction src as [|c src IH]; simpl; [lia|].
  destruct (Ascii.eqb c Ascii.zero); simpl; lia.
Qed.

Lemma c_string_no_nul (src : str) :
  Forall (fun c => c <> Ascii.zero) src -> c_string src = src.
Proof.
  induction 1 as [|c src Hc _ IH]; simpl; [reflexivity|].
  apply Ascii.eqb_neq in Hc. now rewrite Hc, IH.
Qed.

Lemma c_string_terminated (src : str) :
  Forall (fun c => c <> Ascii.zero) src -> c_string (src ++ [Ascii.zero]) = src.
Proof.
  induction 1 as [|c src Hc _ IH]; simpl; [reflexivity|].
  apply Ascii.eqb_neq in Hc. now rewrite Hc, IH.
Qed.

Lemma join_spaces_chars (P : ascii -> Prop) (ws : list str) :
  P " "%char ->
  Forall (Forall P) ws ->
  Forall P (join_spaces ws).
Proof.
  intros Hsp. induction 1 as [|w ws Hw Hws IH]; [constructor|].
  rewrite join_spaces_cons. apply Forall_app. split; [exact Hw|].
  destruct ws; [constructor|]. constructor; [exact Hsp | exact IH].
Qed.

Lemma detokenize_no_nul (tokens : list Z) :
  Forall (fun c => c <> Ascii.zero) (detokenize tokens).
Proof.
  rewrite detokenize_join. apply join_spaces_chars; [discriminate|].
  apply Forall_map, Forall_forall. intros t _.
  eapply Forall_impl; [|apply get_token_str_chars].
  intros c. apply is_token_char_not_nul.
Qed.

(** X8.  [strcpy] never writes more than [src.size() + 1] characters: it
    writes the characters before the first NUL of the source and one NUL.
    For a source without NUL that is the whole source, and reading the
    buffer back as a C string returns the source. *)
Theorem strcpy_fits_and_reads_back (src : str) :
  strcpy src = c_string src ++ [Ascii.zero] /\
  length (strcpy src) <= length src + 1 /\
  (Forall (fun c => c <> Ascii.zero) src ->
   strcpy src = src ++ [Ascii.zero] /\ c_string (strcpy src) = src).
Proof.
  split; [apply strcpy_c_string|]. split.
  - rewrite strcpy_c_string, length_app. simpl.
    pose proof (c_string_length src). lia.
  - intros Hn. rewrite strcpy_c_string, c_string_no_nul by exact Hn.
    split; [reflexivity | now apply c_string_terminated].
Qed.

(** X9.  When [generate] returns a string and the buffer can be allocated,
    [llamalex_generate] returns a non-null buffer holding that string
    followed by one NUL: it fills the [size + 1] characters allocated, and a
    C reader finds the whole string in it. *)
Theorem llamalex_generate_buffer
    (model : LlamaLex) (prompt : str) (max_length : N) (s s' : rng) (out : str) :
  generate model prompt max_length s = Ok (out, s') ->
  alloc_ok (N.of_nat (length out) + 1) = true ->
  llamalex_generate (ptr_to model) prompt max_length s
  = Ok (ptr_to (out ++ [Ascii.zero]), s') /\
  length (out ++ [Ascii.zero]) = length out + 1 /\
  c_string (out ++ [Ascii.zero]) = out.
Proof.
  intros G Ha.
  destruct (generate_output_detokenized _ _ _ _ _ _ G) as [tokens Hout].
  assert (Forall (fun c => c <> Ascii.zero) out) as Hn
    by (rewrite Hout; apply detokenize_no_nul).
  split; [|split].
  - unfold llamalex_generate, mbind, lift, operator_new, mret.
    rewrite G, Ha. simpl.
    now rewrite strcpy_c_string, c_string_no_nul.
  - rewrite length_app. reflexivity.
  - now apply c_string_terminated.
Qed.

(** ** More on generation *)

Lemma through_eos_length (l : list Z) : length (through_eos l) <= length l.
Proof.
  induction l as [|t l IH]; simpl; [lia|].
  destruct (t =? EOS)%Z; simpl; lia.
Qed.

Lemma through_eos_Forall (P : Z -> Prop) (l : list Z) :
  Forall P l -> Forall P (through_eos l).
Proof.
  induction 1 as [|t l Ht _ IH]; simpl; [constructor|].
  destruct (t =? EOS)%Z; constructor; auto.
Qed.

Lemma through_eos_without_eos (l : list Z) :
  Forall (fun t => t <> EOS) l -> through_eos l = l.
Proof.
  induction 1 as [|t l Ht _ IH]; simpl; [reflexivity|].
  apply Z.eqb_neq in Ht. now rewrite Ht, IH.
Qed.

(** The loop of [generate] appends the tokens drawn from the successive
    results of [rand()], up to and including the first END. *)
Lemma generate_loop_samples (self : LlamaLex) :
  vocab_size (config_ self) <> 0%N ->
  forall todo tokens s,
    let appended := through_eos (map (sample_token self) (rand_values todo s)) in
    generate_loop self todo tokens s
    = Ok (tokens ++ appended, rand_skip (length appended) s).
Proof.
  intros Hv. apply N.eqb_neq in Hv.
  induction todo as [|todo IH]; intros tokens s; cbv zeta.
  - simpl. unfold mret. now rewrite app_nil_r.
  - simpl generate_loop. unfold mbind, call_rand, lift, size_mod.
    rewrite Hv.
    simpl rand_values. destruct (rand s) as [r s1] eqn:R.
    cbn [fst snd map through_eos].
    fold (sample_token self r). unfold EOS.
    destruct (sample_token self r =? 2)%Z.
    + unfold mret. simpl length. now rewrite rand_skip_S, R.
    + rewrite IH. simpl length. rewrite rand_skip_S, R. cbn [snd].
      now rewrite <- app_assoc.
Qed.

Lemma generate_tokens_samples
    (config : LlamaLexConfig) (prompt : str) (max_length : N) (s : rng) :
  vocab_size config <> 0%N ->
  let self := LlamaLex_new config in
  let appended :=
    through_eos (map (sample_token self) (rand_values (N.to_nat max_length) s)) in
  generate_tokens self prompt max_length s
  = Ok ((BOS :: map (token_of (tokenizer_ self)) (words prompt) ++ [EOS]) ++ appended,
        rand_skip (length appended) s).
Proof.
  intros Hv self appended.
  unfold generate_tokens, mbind, lift.
  rewrite tokenize_words by exact Hv.
  apply (generate_loop_samples self Hv).
Qed.

Lemma sample_token_in_range (self : LlamaLex) (r : Z) :
  vocab_size (config_ self) <> 0%N ->
  (vocab_size (config_ self) <= 2 ^ 31)%N ->
  (0 <= sample_token self r < Z.of_N (vocab_size (config_ self)))%Z.
Proof.
  intros Hv Hmax. unfold sample_token.
  pose proof (N.mod_upper_bound (to_size_t r) (vocab_size (config_ self)) Hv) as Hlt.
  change (2 ^ 31)%N with 2147483648%N in Hmax.
  remember (to_size_t r mod vocab_size (config_ self))%N as m eqn:Hm. clear Hm.
  rewrite to_int_small; change (2 ^ 31)%Z with 2147483648%Z; lia.
Qed.

(** X10.  The tokens [generate] appends to the tokenized prompt are exactly
    [rand() % vocab_size], converted to [int], for the successive results of
    [rand()], up to and including the first one that equals END or, failing
    that, the [max_length]-th; [rand()] is called once per appended token. *)
Theorem generate_appends_samples_through_first_end
    (config : LlamaLexConfig) (prompt : str) (max_length : N) (s : rng) :
  vocab_size config <> 0%N ->
  let self := LlamaLex_new config in
  let drawn := map (sample_token self) (rand_values (N.to_nat max_length) s) in
  generate self prompt max_length s
  = Ok (detokenize ((1%Z :: map (token_of (tokenizer_ self)) (words prompt) ++ [2%Z])
                      ++ through_eos drawn),
        rand_skip (length (through_eos drawn)) s).
Proof.
  intros Hv self drawn. subst drawn self.
  pose proof (generate_tokens_samples config prompt max_length s Hv) as G.
  cbv zeta in G.
  unfold generate, mbind, mret. rewrite G.
  reflexivity.
Qed.

(** X11.  With a vocabulary of at most [2^31] entries every token [generate]
    appends lies in [[0, vocab_size)]. *)
Theorem generate_appended_tokens_in_range
    (config : LlamaLexConfig) (prompt : str) (max_length : N) (s : rng) :
  vocab_size config <> 0%N ->
  (vocab_size config <= 2 ^ 31)%N ->
  exists prompt_tokens appended s',
    tokenize (tokenizer_ (LlamaLex_new config)) prompt = Ok prompt_tokens /\
    generate_tokens (LlamaLex_new config) prompt max_length s
    = Ok (prompt_tokens ++ appended, s') /\
    Forall (fun t => (0 <= t < Z.of_N (vocab_size config))%Z) appended.
Proof.
  intros Hv Hmax.
  eexists. eexists. eexists.
  split; [apply tokenize_words; exact Hv|].
  split; [apply (generate_tokens_samples config prompt max_length s Hv)|].
  apply through_eos_Forall, Forall_map, Forall_forall.
  intros r _. now apply (sample_token_in_range (LlamaLex_new config)).
Qed.

(** X12.  With a vocabulary of one or two entries END can never be drawn:
    [generate] then always appends exactly [max_length] tokens and calls
    [rand()] [max_length] times. *)
Theorem generate_never_stops_early_on_tiny_vocabulary
    (config : LlamaLexConfig) (prompt : str) (max_length : N) (s : rng) :
  vocab_size config <> 0%N ->
  (vocab_size config <= 2)%N ->
  exists prompt_tokens appended,
    tokenize (tokenizer_ (LlamaLex_new config)) prompt = Ok prompt_tokens /\
    generate_tokens (LlamaLex_new config) prompt max_length s
    = Ok (prompt_tokens ++ appended, rand_skip (N.to_nat max_length) s) /\
    length appended = N.to_nat max_length /\
    Forall (fun t => t = 0%Z \/ t = 1%Z) appended.
Proof.
  intros Hv Hmax.
  set (self := LlamaLex_new config).
  set (drawn := map (sample_token self) (rand_values (N.to_nat max_length) s)).
  assert (Forall (fun t => t = 0%Z \/ t = 1%Z) drawn) as Hsmall.
  { apply Forall_map, Forall_forall. intros r _.
    assert (vocab_size (config_ self) <= 2 ^ 31)%N as Hm
      by (change (2 ^ 31)%N with 2147483648%N; simpl; lia).
    pose proof (sample_token_in_range self r Hv Hm) as Hr.
    simpl in Hr. lia. }
  assert (through_eos drawn = drawn) as Hall.
  { apply through_eos_without_eos.
    eapply Forall_impl; [|exact Hsmall]. unfold EOS. intros t [-> | ->]; discriminate. }
  eexists. exists drawn.
  split; [apply tokenize_words; exact Hv|].
  split.
  - pose proof (generate_tokens_samples config prompt max_length s Hv) as G.
    cbv zeta in G. fold self in G. fold drawn in G. rewrite Hall in G.
    unfold drawn at 2 in G. rewrite length_map, rand_values_length in G.
    exact G.
  - split; [|exact Hsmall].
    unfold drawn. now rewrite length_map, rand_values_length.
Qed.

Lemma join_spaces_app_prefix (l1 l2 : list str) :
  exists suffix, join_spaces (l1 ++ l2) = join_spaces l1 ++ suffix.
Proof.
  induction l1 as [|w l1 IH].
  - now exists (join_spaces l2).
  - destruct IH as [suffix IH].
    rewrite <- app_comm_cons, !join_spaces_cons.
    destruct l1 as [|w' l1].
    + cbn [app]. rewrite app_nil_r. eexists. reflexivity.
    + cbn [app] in IH |- *. rewrite IH.
      exists suffix. rewrite <- app_assoc. reflexivity.
Qed.

Lemma drop_sentinels_framed (ids : list Z) :
  drop_sentinels (BOS :: ids ++ [EOS]) = drop_sentinels ids.
Proof.
  change (BOS :: ids ++ [EOS]) with ([BOS] ++ ids ++ [EOS]).
  rewrite !drop_sentinels_app.
  change (drop_sentinels [BOS]) with (@nil Z).
  change (drop_sentinels [EOS]) with (@nil Z).
  now rewrite app_nil_r.
Qed.

(** X13.  The string [generate] returns begins with the detokenized prompt,
    and it has at most as many words as the prompt has plus [max_length].
    With [max_length = 0] it is the detokenized prompt and [rand()] is not
    called. *)
Theorem generate_output_extends_prompt
    (config : LlamaLexConfig) (prompt : str) (max_length : N) (s : rng) :
  vocab_size config <> 0%N ->
  let self := LlamaLex_new config in
  exists prompt_tokens out s' suffix,
    tokenize (tokenizer_ self) prompt = Ok prompt_tokens /\
    generate self prompt max_length s = Ok (out, s') /\
    out = detokenize prompt_tokens ++ suffix /\
    length (words out) <= length (words prompt) + N.to_nat max_length /\
    (max_length = 0%N -> suffix = [] /\ s' = s).
Proof.
  intros Hv self.
  set (ids := map (token_of (tokenizer_ self)) (words prompt)).
  set (app := through_eos (map (sample_token self)
                             (rand_values (N.to_nat max_length) s))).
  destruct (join_spaces_app_prefix (map get_token_str (drop_sentinels (BOS :: ids ++ [EOS])))
              (map get_token_str (drop_sentinels app))) as [suffix Hsuffix].
  exists (BOS :: ids ++ [EOS]), (detokenize ((BOS :: ids ++ [EOS]) ++ app)),
         (rand_skip (length app) s), suffix.
  split; [apply tokenize_words; exact Hv|].
  split.
  { pose proof (generate_tokens_samples config prompt max_length s Hv) as G.
    cbv zeta in G.
    unfold generate, mbind, mret. unfold self. rewrite G.
    reflexivity. }
  split.
  { now rewrite !detokenize_join, drop_sentinels_app, map_app. }
  split.
  { rewrite words_detokenize, length_map, drop_sentinels_app, length_app.
    rewrite drop_sentinels_framed.
    pose proof (filter_length_le (fun t => negb (is_sentinel t)) ids) as H1.
    pose proof (filter_length_le (fun t => negb (is_sentinel t)) app) as H2.
    pose proof (through_eos_length
                  (map (sample_token self) (rand_values (N.to_nat max_length) s))) as H3.
    rewrite length_map, rand_values_length in H3.
    fold app in H3. unfold drop_sentinels.
    unfold ids in H1 at 2. rewrite length_map in H1. lia. }
  intros H0. subst max_length.
  assert (app = []) as Happ by reflexivity.
  rewrite Happ in *. split; [|reflexivity].
  simpl in Hsuffix. rewrite app_nil_r in Hsuffix.
  rewrite <- (app_nil_r (join_spaces _)) in Hsuffix at 1.
  apply app_inv_head in Hsuffix. now symmetry.
Qed.

(** ** More on embeddings and [encode] *)

Lemma rand_skip_add (a b : nat) (s : rng) :
  rand_skip (a + b) s = rand_skip b (rand_skip a s).
Proof.
  revert s. induction a as [|a IH]; intros s; simpl; [reflexivity | apply IH].
Qed.

Lemma rand_values_app (a b : nat) (s : rng) :
  rand_values (a + b) s = rand_values a s ++ rand_values b (rand_skip a s).
Proof.
  revert s. induction a as [|a IH]; intros s; simpl; [reflexivity|].
  now rewrite IH.
Qed.

Lemma get_token_embedding_ok (self : LlamaLex) (token_id : Z) (s : rng) :
  let dim := embedding_dim (config_ self) in
  (dim <= vector_float_max_size)%N ->
  dim = 0%N \/ alloc_ok (sizeof_float * dim) = true ->
  get_token_embedding self token_id s
  = Ok (map embedding_entry (rand_values (N.to_nat dim) s),
        rand_skip (N.to_nat dim) s).
Proof.
  intros dim Hmax Halloc. rewrite get_token_embedding_run. cbv zeta. fold dim.
  apply N.ltb_ge in Hmax. rewrite Hmax.
  destruct Halloc as [H0 | Ha].
  - rewrite H0. reflexivity.
  - rewrite Ha, andb_false_r. reflexivity.
Qed.

Lemma encode_loop_run (self : LlamaLex) (tokens : list Z) :
  let dim := embedding_dim (config_ self) in
  (dim <= vector_float_max_size)%N ->
  dim = 0%N \/ alloc_ok (sizeof_float * dim) = true ->
  forall embeddings s,
    encode_loop self tokens embeddings s
    = Ok (embeddings
            ++ map embedding_entry (rand_values (length tokens * N.to_nat dim) s),
          rand_skip (length tokens * N.to_nat dim) s).
Proof.
  intros dim Hmax Halloc.
  induction tokens as [|t tokens IH]; intros embeddings s.
  - simpl. unfold mret. now rewrite app_nil_r.
  - cbn [encode_loop]. unfold mbind.
    rewrite (get_token_embedding_ok self t s Hmax Halloc). fold dim.
    rewrite IH. cbn [length Nat.mul].
    now rewrite rand_values_app, rand_skip_add, map_app, app_assoc.
Qed.

Lemma encode_loop_fails (self : LlamaLex) (e : exn) (tokens : list Z) :
  (forall t s, get_token_embedding self t s = Throw e) ->
  tokens <> [] ->
  forall embeddings s, encode_loop self tokens embeddings s = Throw e.
Proof.
  intros Hfail Hne embeddings s.
  destruct tokens as [|t tokens]; [congruence|].
  cbn [encode_loop]. unfold mbind. now rewrite Hfail.
Qed.

Lemma encode_run (self : LlamaLex) (text : str) (s : rng) :
  let dim := embedding_dim (config_ self) in
  let n := (2 + length (words text)) * N.to_nat dim in
  vocab_size_ (tokenizer_ self) <> 0%N ->
  (dim <= vector_float_max_size)%N ->
  dim = 0%N \/ alloc_ok (sizeof_float * dim) = true ->
  encode self text s
  = Ok (map embedding_entry (rand_values n s), rand_skip n s).
Proof.
  intros dim n Hv Hmax Halloc.
  unfold encode, mbind, lift.
  rewrite tokenize_words by exact Hv.
  rewrite (encode_loop_run self _ Hmax Halloc). fold dim.
  cbn [length]. rewrite length_app, length_map. cbn [length app].
  replace (S (length (words text) + 1)) with (2 + length (words text)) by lia.
  reflexivity.
Qed.

(** X14.  What [encode] returns does not depend on which words the text
    has, only on how many: it is [(2 + words) * embedding_dim] values, each
    computed from one of the next results of [rand()], and [rand()] has been
    called that many times.  Two texts with the same number of words are
    encoded alike from the same state of [rand()]. *)
Theorem encode_depends_only_on_word_count (self : LlamaLex) (text text' : str) (s : rng) :
  let dim := embedding_dim (config_ self) in
  let n := (2 + length (words text)) * N.to_nat dim in
  vocab_size_ (tokenizer_ self) <> 0%N ->
  (dim <= vector_float_max_size)%N ->
  dim = 0%N \/ alloc_ok (sizeof_float * dim) = true ->
  encode self text s = Ok (map embedding_entry (rand_values n s), rand_skip n s) /\
  (length (words text') = length (words text) ->
   encode self text' s = encode self text s).
Proof.
  intros dim n Hv Hmax Halloc.
  split; [now apply encode_run|].
  intros E. rewrite !encode_run by assumption. now rewrite E.
Qed.

(** X15.  [encode] fails for every text, the empty one included, when
    [embedding_dim] exceeds [max_size()] ([std::length_error]) or when the
    vector of one token cannot be allocated ([std::bad_alloc]). *)
Theorem encode_fails_on_every_text (self : LlamaLex) (text : str) (s : rng) :
  let dim := embedding_dim (config_ self) in
  vocab_size_ (tokenizer_ self) <> 0%N ->
  ((vector_float_max_size < dim)%N -> encode self text s = Throw length_error) /\
  ((dim <= vector_float_max_size)%N -> dim <> 0%N ->
   alloc_ok (sizeof_float * dim) = false ->
   encode self text s = Throw bad_alloc).
Proof.
  intros dim Hv.
  unfold encode, mbind, lift. rewrite tokenize_words by exact Hv.
  split.
  - intros Hbig. apply encode_loop_fails; [|discriminate].
    intros t s0. rewrite get_token_embedding_run. cbv zeta. fold dim.
    apply N.ltb_lt in Hbig. now rewrite Hbig.
  - intros Hmax H0 Ha. apply encode_loop_fails; [|discriminate].
    intros t s0. rewrite get_token_embedding_run. cbv zeta. fold dim.
    apply N.ltb_ge in Hmax. apply N.eqb_neq in H0.
    now rewrite Hmax, H0, Ha.
Qed.

(** X16.  [analyze_case] reports the number of tokens of the text, two more
    than its words, when [embedding_dim] is not zero; with
    [embedding_dim = 0] its division is by zero, for every text. *)
Theorem analyze_case_reports_token_count (self : LlamaLex) (text : str) (s : rng) :
  let dim := embedding_dim (config_ self) in
  let n := (2 + length (words text)) * N.to_nat dim in
  vocab_size_ (tokenizer_ self) <> 0%N ->
  (dim = 0%N -> analyze_case self text s = UB) /\
  (dim <> 0%N -> (dim <= vector_float_max_size)%N ->
   alloc_ok (sizeof_float * dim) = true ->
   analyze_case self text s
   = Ok (N.of_nat (2 + length (words text)), rand_skip n s)).
Proof.
  intros dim n Hv. unfold analyze_case, mbind, lift, mret. split.
  - intros H0.
    rewrite encode_run; [|exact Hv| |left; exact H0].
    + fold dim. rewrite H0. unfold size_div. reflexivity.
    + fold dim. rewrite H0. discriminate.
  - intros H0 Hmax Ha.
    rewrite encode_run; [|exact Hv|exact Hmax|right; exact Ha].
    fold dim. fold n.
    rewrite length_map, rand_values_length.
    unfold size_div. apply N.eqb_neq in H0. rewrite H0.
    apply N.eqb_neq in H0.
    unfold n. rewrite Nat2N.inj_mul, N2Nat.id, N.div_mul by exact H0.
    reflexivity.
Qed.

(** X17.  An engine made by [llamalex_create] and then asked to encode a
    text: when every allocation succeeds, the vocabulary is not empty and
    [embedding_dim] is within [max_size()], [llamalex_encode] returns a
    buffer of [(2 + words) * embedding_dim] floats and stores that number in
    [*out_size]. *)
Theorem llamalex_create_then_encode
    (vocab dim layers : N) (text : str) (s : rng) :
  (forall bytes, alloc_ok bytes = true) ->
  vocab <> 0%N ->
  (dim <= vector_float_max_size)%N ->
  exists engine buffer s',
    llamalex_create vocab dim layers = Ok (ptr_to engine) /\
    llamalex_encode (ptr_to engine) text s
    = Ok (ptr_to buffer, (N.of_nat (2 + length (words text)) * dim)%N, s') /\
    N.of_nat (length buffer) = (N.of_nat (2 + length (words text)) * dim)%N.
Proof.
  intros Halloc Hv Hmax.
  unfold llamalex_create, operator_new. rewrite Halloc. cbn [rbind].
  eexists. eexists. eexists.
  split; [reflexivity|].
  assert (forall n, N.of_nat (length (map embedding_entry
                                        (rand_values (n * N.to_nat dim) s)))
                    = (N.of_nat n * dim)%N) as Hlen.
  { intros n. now rewrite length_map, rand_values_length, Nat2N.inj_mul, N2Nat.id. }
  split.
  - unfold llamalex_encode, mbind, lift, operator_new, mret.
    rewrite encode_run; [|exact Hv|exact Hmax|right; apply Halloc].
    cbn [config_ embedding_dim]. rewrite Halloc, Hlen. reflexivity.
  - apply Hlen.
Qed.

(** X18.  The attention block's constructor is undefined for zero heads
    (a division by zero).  Otherwise the heads cover
    [num_heads * head_dim <= embedding_dim] components, leaving
    [embedding_dim % num_heads] of them out; they cover the whole vector
    exactly when [num_heads] divides [embedding_dim]. *)
Theorem attention_heads_cover (dim heads : N) :
  (heads = 0%N -> MultiHeadAttention_new dim heads = UB) /\
  (heads <> 0%N ->
   exists block,
     MultiHeadAttention_new dim heads = Ok block /\
     (num_heads_ block * head_dim_ block + dim mod heads = dim)%N /\
     (num_heads_ block * head_dim_ block <= dim)%N /\
     ((num_heads_ block * head_dim_ block = dim)%N <-> (dim mod heads = 0)%N)).
Proof.
  unfold MultiHeadAttention_new, size_div. split.
  - intros ->. reflexivity.
  - intros Hh. pose proof Hh as Hb. apply N.eqb_neq in Hb. rewrite Hb.
    eexists. split; [reflexivity|]. cbn [num_heads_ head_dim_].
    pose proof (N.div_mod dim heads Hh) as Hdm.
    remember (dim / heads)%N as q eqn:Hq. remember (dim mod heads)%N as r eqn:Hr.
    clear Hq Hr.
    remember (heads * q)%N as covered eqn:Hc. clear Hc.
    split; [lia|]. split; lia.
Qed.

End LlamaLexModel.

(** ** Runs on the sample platform *)

(** C3, on the code.  With the [rand] of ISO C, two lookups in a row of
    token 5 in the engine of [main] return different vectors. *)
Theorem get_token_embedding_differs_between_calls :
  let engine := LlamaLex_new main_config in
  exists v1 s1 v2 s2,
    get_token_embedding N iso_rand iso_RAND_MAX plenty engine 5%Z iso_seed = Ok (v1, s1) /\
    get_token_embedding N iso_rand iso_RAND_MAX plenty engine 5%Z s1 = Ok (v2, s2) /\
    v1 <> v2.
Proof.
  intros engine.
  pose proof (get_token_embedding_run N iso_rand iso_RAND_MAX plenty engine 5%Z) as R.
  cbv zeta in R.
  change (vector_float_max_size <? embedding_dim (config_ engine))%N with false in R.
  change (negb (embedding_dim (config_ engine) =? 0)%N
          && negb (plenty (sizeof_float * embedding_dim (config_ engine)))) with false in R.
  cbv iota in R.
  do 4 eexists.
  split; [apply R|]. split; [apply R|].
  intros E. apply (f_equal (hd f_zero)) in E. vm_compute in E. discriminate.
Qed.

(** At the default configuration a text of 2047 words is tokenized into
    2049 tokens, more than [max_seq_length = 2048]. *)
Lemma tokenize_exceeds_max_seq_length :
  exists toks,
    tokenize sum_hash (tokenizer_ (LlamaLex_new default_config)) (text_of_words 2047)
    = Ok toks /\
    (max_seq_length default_config < N.of_nat (length toks))%N.
Proof.
  eexists. split.
  - apply tokenize_words. discriminate.
  - rewrite words_text_of_words. vm_compute. reflexivity.
Qed.

(** [embedding_dim = 100] with [num_heads = 7] constructs an attention block
    of head width 14, and [llamalex_create(5000, 100, 4)] returns an engine
    with 100 and 12. *)
Lemma indivisible_construction_succeeds :
  (100 mod 7 <> 0)%N /\
  MultiHeadAttention_new 100 7
  = Ok {| embedding_dim_ := 100; num_heads_ := 7; head_dim_ := 14 |} /\
  (100 mod 12 <> 0)%N /\
  llamalex_create plenty 5000 100 4 = Ok (ptr_to (LlamaLex_new indivisible_config)).
Proof.
  split; [discriminate|]. split; [reflexivity|].
  split; [discriminate|]. reflexivity.
Qed.

(** [llamalex_encode] on an engine created with [embedding_dim = SIZE_MAX]
    ends in [std::length_error], and [llamalex_create] ends in
    [std::bad_alloc] when the allocator has run dry: neither returns null. *)
Lemma exceptions_cross_the_boundary :
  llamalex_create plenty 5000 SIZE_MAX 4 = Ok (ptr_to (LlamaLex_new oversized_config)) /\
  llamalex_encode sum_hash N iso_rand iso_RAND_MAX plenty
    (ptr_to (LlamaLex_new oversized_config)) [] iso_seed = Throw length_error /\
  llamalex_create exhausted 5000 256 4 = Throw bad_alloc.
Proof.
  split; [reflexivity|]. split; [|reflexivity].
  vm_compute. reflexivity.
Qed.


(** ** The theorems at concrete inputs *)

Lemma generate_terminates_within_max_length_witness :
  vocab_size main_config <> 0%N /\
  let self := LlamaLex_new main_config in
  let prompt := lit "The plaintiff argues that" in
  exists prompt_tokens appended,
    tokenize sum_hash (tokenizer_ self) prompt = Ok prompt_tokens /\
    generate_tokens sum_hash N iso_rand self prompt 50 iso_seed
      = Ok (prompt_tokens ++ appended, rand_skip N iso_rand (length appended) iso_seed) /\
    generate sum_hash N iso_rand self prompt 50 iso_seed
      = Ok (detokenize (prompt_tokens ++ appended),
            rand_skip N iso_rand (length appended) iso_seed) /\
    (N.of_nat (length appended) <= 50)%N /\
    (forall before after, appended = before ++ 2%Z :: after -> after = []) /\
    ((N.of_nat (length appended) < 50)%N ->
     exists front, appended = front ++ [2%Z]).
Proof.
  split; [discriminate|].
  apply (generate_terminates_within_max_length sum_hash N iso_rand main_config
           (lit "The plaintiff argues that") 50 iso_seed).
  discriminate.
Defined.

Lemma tokenize_begins_and_ends_witness :
  let self := LegalTokenizer_new 5000 in
  let text := lit "The court held that the contract was valid." in
  vocab_size_ self <> 0%N /\
  exists toks,
    tokenize sum_hash self text = Ok toks /\
    toks <> [] /\ hd_error toks = Some 1%Z /\ last toks 0%Z = 2%Z.
Proof.
  intros self text.
  split; [discriminate|].
  destruct (tokenize_begins_and_ends sum_hash self text) as [Shape [Returns _]].
  destruct Returns as [toks E]; [discriminate|].
  exists toks. split; [exact E | exact (Shape toks E)].
Defined.

Lemma tokenize_length_is_words_plus_two_witness :
  let self := LegalTokenizer_new 5000 in
  vocab_size_ self <> 0%N /\
  (forall text, exists toks,
     tokenize sum_hash self text = Ok toks /\ length toks = 2 + length (words text)) /\
  (forall bound, exists text toks,
     tokenize sum_hash self text = Ok toks /\ bound < length toks).
Proof.
  intros self.
  split; [discriminate|].
  apply (tokenize_length_is_words_plus_two sum_hash self).
  discriminate.
Defined.


Lemma detokenize_skips_sentinels_everywhere_witness :
  let self := LlamaLex_new main_config in
  let prompt := lit "The plaintiff argues that" in
  vocab_size main_config <> 0%N /\
  detokenize ([7] ++ 2 :: [1; 9])%Z = detokenize ([7] ++ [1; 9])%Z /\
  exists out s',
    generate sum_hash N iso_rand self prompt 50 iso_seed = Ok (out, s') /\
    contains (lit "<token_1>") out = false /\
    contains (lit "<token_2>") out = false.
Proof.
  intros self prompt.
  split; [discriminate|].
  destruct (detokenize_skips_sentinels_everywhere sum_hash N iso_rand)
    as [_ [_ [Skip [Clean Returns]]]].
  split; [apply Skip; now right|].
  destruct (Returns main_config prompt 50%N iso_seed) as [out [s' E]]; [discriminate|].
  exists out, s'. split; [exact E | exact (Clean _ _ _ _ _ _ E)].
Defined.


Lemma construction_ignores_divisibility_witness :
  7%N <> 0%N /\
  plenty sizeof_LlamaLex = true /\
  MultiHeadAttention_new 100 7
  = Ok {| embedding_dim_ := 100; num_heads_ := 7; head_dim_ := (100 / 7)%N |} /\
  exists engine,
    llamalex_create plenty 5000 100 4 = Ok (ptr_to engine) /\
    embedding_dim (config_ engine) = 100%N /\
    num_heads (config_ engine) = 12%N.
Proof.
  split; [discriminate|]. split; [reflexivity|].
  destruct (construction_ignores_divisibility plenty) as [Block Engine].
  split.
  - apply Block. discriminate.
  - apply Engine. reflexivity.
Defined.

Lemma boundary_lets_exceptions_through_witness :
  exhausted sizeof_LlamaLex = false /\
  encode sum_hash N iso_rand iso_RAND_MAX plenty (LlamaLex_new oversized_config) [] iso_seed
  = Throw length_error /\
  llamalex_create exhausted 5000 256 4 = Throw bad_alloc /\
  llamalex_encode sum_hash N iso_rand iso_RAND_MAX plenty
    (ptr_to (LlamaLex_new oversized_config)) [] iso_seed = Throw length_error.
Proof.
  split; [reflexivity|].
  assert (encode sum_hash N iso_rand iso_RAND_MAX plenty
            (LlamaLex_new oversized_config) [] iso_seed = Throw length_error) as E
    by (vm_compute; reflexivity).
  split; [exact E|].
  split.
  - destruct (boundary_lets_exceptions_through sum_hash N iso_rand iso_RAND_MAX exhausted)
      as [_ [_ [Create _]]].
    apply Create. reflexivity.
  - destruct (boundary_lets_exceptions_through sum_hash N iso_rand iso_RAND_MAX plenty)
      as [_ [_ [_ [Encode _]]]].
    apply Encode. exact E.
Defined.

(** ** The further theorems at concrete inputs *)

Lemma tokenize_ignores_extra_separators_witness :
  let self := LegalTokenizer_new 5000 in
  let a := lit "The court" in
  let b := lit "held" in
  is_space " "%char = true /\ is_space "009"%char = true /\
  tokenize sum_hash self (" "%char :: a) = tokenize sum_hash self a /\
  tokenize sum_hash self (a ++ [" "%char]) = tokenize sum_hash self a /\
  tokenize sum_hash self (a ++ " "%char :: "009"%char :: b)
  = tokenize sum_hash self (a ++ " "%char :: b) /\
  (words a = words b -> tokenize sum_hash self a = tokenize sum_hash self b).
Proof.
  intros self a b.
  split; [reflexivity|]. split; [reflexivity|].
  apply (tokenize_ignores_extra_separators sum_hash self " "%char "009"%char a b);
    reflexivity.
Defined.

Lemma tokenize_with_empty_vocabulary_witness :
  let self := LegalTokenizer_new 0 in
  vocab_size_ self = 0%N /\
  words (lit " ") = [] /\
  words (lit "a b") <> [] /\
  tokenize sum_hash self (lit " ") = Ok [1%Z; 2%Z] /\
  tokenize sum_hash self (lit "a b") = UB.
Proof.
  intros self.
  split; [reflexivity|]. split; [reflexivity|]. split; [discriminate|].
  split.
  - apply (tokenize_with_empty_vocabulary sum_hash self (lit " ")); reflexivity.
  - apply (tokenize_with_empty_vocabulary sum_hash self (lit "a b"));
      [reflexivity | discriminate].
Defined.

Lemma tokenize_tokens_in_range_witness :
  let self := LegalTokenizer_new 5000 in
  let text := lit "The court held that the contract was valid." in
  vocab_size_ self <> 0%N /\
  (vocab_size_ self <= 2 ^ 31)%N /\
  exists ids,
    tokenize sum_hash self text = Ok (1%Z :: ids ++ [2%Z]) /\
    length ids = length (words text) /\
    Forall (fun t => (0 <= t < 5000)%Z) ids.
Proof.
  intros self text.
  split; [discriminate|]. split; [discriminate|].
  destruct (tokenize_tokens_in_range sum_hash self text) as [ids [T [L [_ R]]]];
    [discriminate|].
  exists ids. split; [exact T|]. split; [exact L|].
  apply R. discriminate.
Defined.

Lemma tokenize_of_detokenize_witness :
  let self := LegalTokenizer_new 5000 in
  let tokens := [1; 289; 2; 957; 1838]%Z in
  vocab_size_ self <> 0%N /\
  tokenize sum_hash self (detokenize tokens)
  = Ok (1%Z :: map (fun t => token_of sum_hash self (get_token_str t))
                 (drop_sentinels tokens) ++ [2%Z]) /\
  (forall toks, tokenize sum_hash self (detokenize tokens) = Ok toks ->
     length toks = 2 + length (drop_sentinels tokens)).
Proof.
  intros self tokens.
  split; [discriminate|].
  apply (tokenize_of_detokenize sum_hash self tokens). discriminate.
Defined.

Lemma strcpy_fits_and_reads_back_witness :
  let src := lit "<token_7>" in
  Forall (fun c => c <> Ascii.zero) src /\
  strcpy src = src ++ [Ascii.zero] /\ c_string (strcpy src) = src.
Proof.
  intros src.
  assert (Forall (fun c => c <> Ascii.zero) src) as Hn
    by (repeat constructor; discriminate).
  split; [exact Hn|].
  destruct (strcpy_fits_and_reads_back src) as [_ [_ R]].
  apply R. exact Hn.
Defined.

Lemma llamalex_generate_buffer_witness :
  let model := LlamaLex_new main_config in
  let prompt := lit "The plaintiff argues that" in
  exists out s',
    generate sum_hash N iso_rand model prompt 50 iso_seed = Ok (out, s') /\
    plenty (N.of_nat (length out) + 1) = true /\
    llamalex_generate sum_hash N iso_rand plenty (ptr_to model) prompt 50 iso_seed
    = Ok (ptr_to (out ++ [Ascii.zero]), s') /\
    length (out ++ [Ascii.zero]) = length out + 1 /\
    c_string (out ++ [Ascii.zero]) = out.
Proof.
  intros model prompt.
  destruct (generate_run sum_hash N iso_rand main_config prompt 50 iso_seed)
    as [pt [app [_ [_ [G _]]]]]; [discriminate|].
  eexists. eexists. split; [exact G|]. split; [reflexivity|].
  apply (llamalex_generate_buffer sum_hash N iso_rand plenty model prompt 50 iso_seed);
    [exact G | reflexivity].
Defined.

Lemma generate_appends_samples_through_first_end_witness :
  let self := LlamaLex_new main_config in
  let prompt := lit "The plaintiff argues that" in
  let drawn := map (sample_token self) (rand_values N iso_rand (N.to_nat 50) iso_seed) in
  vocab_size main_config <> 0%N /\
  generate sum_hash N iso_rand self prompt 50 iso_seed
  = Ok (detokenize ((1%Z :: map (token_of sum_hash (tokenizer_ self)) (words prompt)
                       ++ [2%Z]) ++ through_eos drawn),
        rand_skip N iso_rand (length (through_eos drawn)) iso_seed).
Proof.
  intros self prompt drawn.
  split; [discriminate|].
  apply (generate_appends_samples_through_first_end sum_hash N iso_rand
           main_config prompt 50 iso_seed).
  discriminate.
Defined.

Lemma generate_appended_tokens_in_range_witness :
  let prompt := lit "The plaintiff argues that" in
  vocab_size main_config <> 0%N /\
  (vocab_size main_config <= 2 ^ 31)%N /\
  exists prompt_tokens appended s',
    tokenize sum_hash (tokenizer_ (LlamaLex_new main_config)) prompt = Ok prompt_tokens /\
    generate_tokens sum_hash N iso_rand (LlamaLex_new main_config) prompt 50 iso_seed
    = Ok (prompt_tokens ++ appended, s') /\
    Forall (fun t => (0 <= t < Z.of_N (vocab_size main_config))%Z) appended.
Proof.
  intros prompt.
  split; [discriminate|]. split; [discriminate|].
  apply (generate_appended_tokens_in_range sum_hash N iso_rand
           main_config prompt 50 iso_seed); discriminate.
Defined.

Lemma generate_never_stops_early_on_tiny_vocabulary_witness :
  let prompt := lit "The plaintiff argues that" in
  vocab_size tiny_vocab_config <> 0%N /\
  (vocab_size tiny_vocab_config <= 2)%N /\
  exists prompt_tokens appended,
    tokenize sum_hash (tokenizer_ (LlamaLex_new tiny_vocab_config)) prompt
    = Ok prompt_tokens /\
    generate_tokens sum_hash N iso_rand (LlamaLex_new tiny_vocab_config) prompt 50 iso_seed
    = Ok (prompt_tokens ++ appended, rand_skip N iso_rand (N.to_nat 50) iso_seed) /\
    length appended = N.to_nat 50 /\
    Forall (fun t => t = 0%Z \/ t = 1%Z) appended.
Proof.
  intros prompt.
  split; [discriminate|]. split; [discriminate|].
  apply (generate_never_stops_early_on_tiny_vocabulary sum_hash N iso_rand
           tiny_vocab_config prompt 50 iso_seed); discriminate.
Defined.

Lemma generate_output_extends_prompt_witness :
  let self := LlamaLex_new main_config in
  let prompt := lit "The plaintiff argues that" in
  vocab_size main_config <> 0%N /\
  exists prompt_tokens out s' suffix,
    tokenize sum_hash (tokenizer_ self) prompt = Ok prompt_tokens /\
    generate sum_hash N iso_rand self prompt 50 iso_seed = Ok (out, s') /\
    out = detokenize prompt_tokens ++ suffix /\
    length (words out) <= length (words prompt) + N.to_nat 50 /\
    (50%N = 0%N -> suffix = [] /\ s' = iso_seed).
Proof.
  intros self prompt.
  split; [discriminate|].
  apply (generate_output_extends_prompt sum_hash N iso_rand main_config prompt 50 iso_seed).
  discriminate.
Defined.

Lemma encode_depends_only_on_word_count_witness :
  let self := LlamaLex_new main_config in
  let text := lit "The court held" in
  let text' := lit "a  b c" in
  vocab_size_ (tokenizer_ self) <> 0%N /\
  (embedding_dim (config_ self) <= vector_float_max_size)%N /\
  plenty (sizeof_float * embedding_dim (config_ self)) = true /\
  length (words text') = length (words text) /\
  encode sum_hash N iso_rand iso_RAND_MAX plenty self text' iso_seed
  = encode sum_hash N iso_rand iso_RAND_MAX plenty self text iso_seed.
Proof.
  intros self text text'.
  split; [discriminate|]. split; [discriminate|]. split; [reflexivity|].
  split; [reflexivity|].
  apply (encode_depends_only_on_word_count sum_hash N iso_rand iso_RAND_MAX plenty
           self text text' iso_seed);
    [discriminate | discriminate | right; reflexivity | reflexivity].
Defined.

Lemma encode_fails_on_every_text_witness :
  vocab_size_ (tokenizer_ (LlamaLex_new oversized_config)) <> 0%N /\
  (vector_float_max_size < embedding_dim oversized_config)%N /\
  encode sum_hash N iso_rand iso_RAND_MAX plenty (LlamaLex_new oversized_config)
    (lit "The court held") iso_seed = Throw length_error /\
  (embedding_dim main_config <= vector_float_max_size)%N /\
  embedding_dim main_config <> 0%N /\
  exhausted (sizeof_float * embedding_dim main_config) = false /\
  encode sum_hash N iso_rand iso_RAND_MAX exhausted (LlamaLex_new main_config)
    (lit "The court held") iso_seed = Throw bad_alloc.
Proof.
  split; [discriminate|]. split; [reflexivity|].
  split.
  - apply (encode_fails_on_every_text sum_hash N iso_rand iso_RAND_MAX plenty
             (LlamaLex_new oversized_config)); [discriminate | reflexivity].
  - split; [discriminate|]. split; [discriminate|]. split; [reflexivity|].
    apply (encode_fails_on_every_text sum_hash N iso_rand iso_RAND_MAX exhausted
             (LlamaLex_new main_config));
      [discriminate | discriminate | discriminate | reflexivity].
Defined.

Lemma analyze_case_reports_token_count_witness :
  let text := lit "In the matter of Smith v. Jones" in
  vocab_size_ (tokenizer_ (LlamaLex_new zero_dim_config)) <> 0%N /\
  embedding_dim zero_dim_config = 0%N /\
  analyze_case sum_hash N iso_rand iso_RAND_MAX plenty
    (LlamaLex_new zero_dim_config) text iso_seed = UB /\
  embedding_dim main_config <> 0%N /\
  (embedding_dim main_config <= vector_float_max_size)%N /\
  plenty (sizeof_float * embedding_dim main_config) = true /\
  analyze_case sum_hash N iso_rand iso_RAND_MAX plenty
    (LlamaLex_new main_config) text iso_seed
  = Ok (9%N, rand_skip N iso_rand (9 * 256) iso_seed).
Proof.
  intros text.
  split; [discriminate|]. split; [reflexivity|].
  split.
  - apply (analyze_case_reports_token_count sum_hash N iso_rand iso_RAND_MAX plenty
             (LlamaLex_new zero_dim_config) text iso_seed);
      [discriminate | reflexivity].
  - split; [discriminate|]. split; [discriminate|]. split; [reflexivity|].
    apply (analyze_case_reports_token_count sum_hash N iso_rand iso_RAND_MAX plenty
             (LlamaLex_new main_config) text iso_seed);
      [discriminate | discriminate | discriminate | reflexivity].
Defined.

Lemma llamalex_create_then_encode_witness :
  let text := lit "The court held that the contract was valid." in
  (forall bytes, plenty bytes = true) /\
  5000%N <> 0%N /\
  (256 <= vector_float_max_size)%N /\
  exists engine buffer s',
    llamalex_create plenty 5000 256 4 = Ok (ptr_to engine) /\
    llamalex_encode sum_hash N iso_rand iso_RAND_MAX plenty (ptr_to engine) text iso_seed
    = Ok (ptr_to buffer, (N.of_nat (2 + length (words text)) * 256)%N, s') /\
    N.of_nat (length buffer) = (N.of_nat (2 + length (words text)) * 256)%N.
Proof.
  intros text.
  split; [reflexivity|]. split; [discriminate|]. split; [discriminate|].
  apply (llamalex_create_then_encode sum_hash N iso_rand iso_RAND_MAX plenty
           5000 256 4 text iso_seed);
    [reflexivity | discriminate | discriminate].
Defined.

Lemma attention_heads_cover_witness :
  MultiHeadAttention_new 100 0 = UB /\
  7%N <> 0%N /\
  exists block,
    MultiHeadAttention_new 100 7 = Ok block /\
    (num_heads_ block * head_dim_ block + 100 mod 7 = 100)%N /\
    (num_heads_ block * head_dim_ block <= 100)%N /\
    ((num_heads_ block * head_dim_ block = 100)%N <-> (100 mod 7 = 0)%N).
Proof.
  destruct (attention_heads_cover 100 0) as [Zero _].
  destruct (attention_heads_cover 100 7) as [_ Seven].
  split; [apply Zero; reflexivity|].
  split; [discriminate|].
  apply Seven. discriminate.
Defined.
